(** * Bit fields over fixed-width scalars: a shallow embedding

    The C++20 headers [bits.hpp], [bit_field.hpp], [counter.hpp] and
    [bit_field_builder.hpp] are embedded as functions over [Z].  A value of a
    C++ scalar type is the mathematical integer it denotes (negative for a
    negative signed value); conversions, the integral promotions and the
    C++20 meaning of the shifts are written out.  Everything the compiler
    decides -- [requires] clauses, [static_assert]s, narrowing in a template
    argument, constant evaluation of a variable template -- is an [option]:
    [None] is a program that is rejected, or whose behaviour is undefined.

    Fixed here: [std::size_t] has 64 bits and [int] has 32; the build is the
    default one of [config.hpp] (default strategy [mask], exceptions enabled);
    templates nest up to 900 instantiations, the default of GCC.
    Not modelled: [bool], and the names of fields -- a field of a class is
    referred to by its position among the fields. *)

From Stdlib Require Import ZArith Bool List Lia.
Import ListNotations.
Local Open Scope Z_scope.

(** ** Small error monad for definition-time rejection *)

Definition bind {A B} (m : option A) (f : A -> option B) : option B :=
  match m with
  | Some a => f a
  | None => None
  end.

Notation "x <- m ;; k" := (bind m (fun x => k))
  (at level 61, m at next level, right associativity).

Definition guard (b : bool) : option unit := if b then Some tt else None.

(** ** Scalar types *)

Inductive int_width := W8 | W16 | W32 | W64.

Definition width_bits (w : int_width) : Z :=
  match w with W8 => 8 | W16 => 16 | W32 => 32 | W64 => 64 end.

(** [Integral w s] is a fixed-width integer type ([std::uint8_t] is
    [Integral W8 false], [int] is [Integral W32 true]); [Byte] is [std::byte],
    an enumeration over [unsigned char] with operators of its own;
    [Enum w s] is any other enumeration, whose underlying type is
    [Integral w s]. *)
Inductive scalar :=
| Integral (w : int_width) (sgn : bool)
| Byte
| Enum (w : int_width) (sgn : bool).

Definition uint8_t := Integral W8 false.
Definition uint16_t := Integral W16 false.
Definition uint32_t := Integral W32 false.
Definition uint64_t := Integral W64 false.
Definition int8_t := Integral W8 true.
Definition int_t := Integral W32 true.
Definition unsigned_t := Integral W32 false.

(** An [enum class] without a declared underlying type: it is [int]. *)
Definition enum_int := Enum W32 true.

(** [bits<T>]: [sizeof(T) * CHAR_BIT]. *)
Definition bits (T : scalar) : Z :=
  match T with
  | Integral w _ | Enum w _ => width_bits w
  | Byte => 8
  end.

Definition is_signed (T : scalar) : bool :=
  match T with
  | Integral _ s | Enum _ s => s
  | Byte => false
  end.

Definition is_integral (T : scalar) : bool :=
  match T with Integral _ _ => true | _ => false end.

Definition is_byte (T : scalar) : bool :=
  match T with Byte => true | _ => false end.

(** [std::underlying_type] where [std::is_enum_v] holds, the type itself
    otherwise; [std::byte] is an enumeration. *)
Definition underlying (T : scalar) : scalar :=
  match T with
  | Enum w s => Integral w s
  | Byte => uint8_t
  | Integral _ _ => T
  end.

(** The values a type holds. *)
Definition in_range (T : scalar) (v : Z) : Prop :=
  if is_signed T
  then - 2 ^ (bits T - 1) <= v < 2 ^ (bits T - 1)
  else 0 <= v < 2 ^ bits T.

(** [static_cast<T>(z)]: the value of [T] congruent to [z] modulo
    [2 ^ bits<T>]. *)
Definition static_cast (T : scalar) (z : Z) : Z :=
  let m := z mod 2 ^ bits T in
  if is_signed T && (2 ^ (bits T - 1) <=? m) then m - 2 ^ bits T else m.

(** The type an operand of type [T] has once an operator is applied to it: the
    integral promotions take a type narrower than [int] to [int]; the
    operators of [std::byte] compute in [unsigned int]. *)
Definition promote (T : scalar) : scalar :=
  match T with
  | Byte => unsigned_t
  | _ => if bits T <? 32 then int_t else underlying T
  end.

(** The type of the result of [a op b] for operands of type [T]:
    the promoted type, and [std::byte] again for [std::byte]. *)
Definition result_type (T : scalar) : scalar :=
  match T with
  | Byte => Byte
  | _ => promote T
  end.

(** [a & b], [a | b] and [~a] on operands of type [T]. *)
Definition and_ (T : scalar) (a b : Z) : Z := static_cast (result_type T) (Z.land a b).
Definition or_ (T : scalar) (a b : Z) : Z := static_cast (result_type T) (Z.lor a b).
Definition not_ (T : scalar) (a : Z) : Z :=
  static_cast (result_type T) (static_cast (promote T) (Z.lnot a)).

(** [a << n] and [a >> n] for [a] of type [T]: undefined when [n] is negative
    or not less than the width of the promoted left operand; otherwise the
    value congruent to [a * 2 ^ n], and the arithmetic shift. *)
Definition shl (T : scalar) (a n : Z) : option Z :=
  _ <- guard ((0 <=? n) && (n <? bits (promote T))) ;;
  Some (static_cast (result_type T) (static_cast (promote T) (Z.shiftl a n))).

Definition shr (T : scalar) (a n : Z) : option Z :=
  _ <- guard ((0 <=? n) && (n <? bits (promote T))) ;;
  Some (static_cast (result_type T) (Z.shiftr a n)).

(** [a - b] on [int]: overflow is undefined. *)
Definition int_sub (a b : Z) : option Z :=
  _ <- guard ((- 2 ^ 31 <=? a - b) && (a - b <? 2 ^ 31)) ;; Some (a - b).

(** A template argument of type [unsigned] or [std::size_t]: a value that does
    not fit is a narrowing conversion, which is ill-formed. *)
Definition unsigned_arg (z : Z) : option Z :=
  _ <- guard ((0 <=? z) && (z <? 2 ^ 32)) ;; Some z.

Definition size_t_bits : Z := 64.

Definition size_t_arg (z : Z) : option Z :=
  _ <- guard ((0 <=? z) && (z <? 2 ^ size_t_bits)) ;; Some z.

(** Wrap-around of [unsigned] and [std::size_t] arithmetic. *)
Definition u32 (z : Z) : Z := z mod 2 ^ 32.
Definition usize (z : Z) : Z := z mod 2 ^ size_t_bits.

(** ** bits.hpp *)

(** The body of the loop of [bit_mask], [n] iterations from [i]:
    [value |= static_cast<T>(1 << i)], where [1] is an [int]. *)
Fixpoint bit_mask_loop (T : scalar) (n : nat) (i value : Z) : option Z :=
  match n with
  | O => Some value
  | S n' =>
      b <- shl int_t 1 i ;;
      bit_mask_loop T n' (i + 1) (static_cast T (or_ T value (static_cast T b)))
  end.

(** [bit_mask<T, NStart, NCount>].  The loop runs while
    [i < NStart + NCount], the sum computed in [unsigned]. *)
Definition bit_mask (T : scalar) (NStart NCount : Z) : option Z :=
  NStart <- unsigned_arg NStart ;;
  NCount <- unsigned_arg NCount ;;
  _ <- guard ((is_integral T || is_byte T)
              && (0 <? NCount) && (u32 (NStart + NCount) <=? bits T)) ;;
  bit_mask_loop T (Z.to_nat (u32 (NStart + NCount) - NStart)) NStart
    (static_cast T 0).

(** [extract_bits<NBits, NSourceOffset, TSource, TDestination,
    NDestinationOffset, BSkipMask>(source)]. *)
Definition extract_bits (NBits NSourceOffset : Z) (TSource TDestination : scalar)
    (NDestinationOffset : Z) (BSkipMask : bool) (source : Z) : option Z :=
  NBits <- size_t_arg NBits ;;
  NSourceOffset <- size_t_arg NSourceOffset ;;
  NDestinationOffset <- size_t_arg NDestinationOffset ;;
  _ <- guard ((0 <? NBits)
              && (usize (NBits + NSourceOffset) <=? bits TSource)
              && (usize (NBits + NDestinationOffset) <=? bits TDestination)) ;;
  let TSourceUnderlying := underlying TSource in
  let TDestinationUnderlying := underlying TDestination in
  mask <- bit_mask TSourceUnderlying NSourceOffset NBits ;;
  shift <- int_sub (static_cast int_t NSourceOffset)
             (static_cast int_t NDestinationOffset) ;;
  let source_bits :=
    if negb BSkipMask
    then static_cast TSourceUnderlying
           (and_ TSourceUnderlying (static_cast TSourceUnderlying source) mask)
    else static_cast TSourceUnderlying source in
  if shift =? 0 then
    Some (static_cast TDestination (static_cast TDestinationUnderlying source_bits))
  else if 0 <? shift then
    shifted <- shr TSourceUnderlying source_bits shift ;;
    Some (static_cast TDestination (static_cast TDestinationUnderlying shifted))
  else
    shifted <- shl TDestinationUnderlying
                 (static_cast TDestinationUnderlying source_bits) (- shift) ;;
    Some (static_cast TDestination shifted).

(** ** bit_field.hpp *)

Module bit_field_assignment_strategy.

Inductive t := unchecked | mask | return_bool | exception | no_override.

Definition eqb (a b : t) : bool :=
  match a, b with
  | unchecked, unchecked | mask, mask | return_bool, return_bool
  | exception, exception | no_override, no_override => true
  | _, _ => false
  end.

End bit_field_assignment_strategy.

(** config.hpp: the strategy used when nothing overrides it; error raising is
    taken as available ([BIT_FIELD_EXCEPTIONS_ENABLED]). *)
Definition BIT_FIELD_DEFAULT_STRATEGY := bit_field_assignment_strategy.mask.

(** The two offset sentinels: [std::numeric_limits<std::size_t>::max()] and
    the value below it. *)
Definition no_override : Z := 2 ^ size_t_bits - 1.
Definition no_shift : Z := no_override - 1.

(** [bit_field_config<TBitFieldType>]; [type = None] is [void]. *)
Record bit_field_config := {
  type : option scalar;
  offset : Z;
  strategy : bit_field_assignment_strategy.t
}.

(** [bit_field_config{}]. *)
Definition bit_field_config_default : bit_field_config :=
  {| type := None; offset := no_override;
     strategy := bit_field_assignment_strategy.no_override |}.

(** [bit_field<NBits, NOffset, TDefaultConfig>]. *)
Record bit_field := {
  NBits : Z;
  NOffset : Z;
  TDefaultConfig : bit_field_config
}.

Definition effective_offset (f : bit_field) (TConfig : bit_field_config) : Z :=
  if offset TConfig =? no_override then
    if offset (TDefaultConfig f) =? no_override then 0
    else if offset (TDefaultConfig f) =? no_shift then NOffset f
         else offset (TDefaultConfig f)
  else if offset TConfig =? no_shift then NOffset f
       else offset TConfig.

Definition effective_strategy (f : bit_field) (TConfig : bit_field_config)
  : bit_field_assignment_strategy.t :=
  match strategy TConfig with
  | bit_field_assignment_strategy.no_override =>
      match strategy (TDefaultConfig f) with
      | bit_field_assignment_strategy.no_override => BIT_FIELD_DEFAULT_STRATEGY
      | s => s
      end
  | s => s
  end.

Definition effective_storage (f : bit_field) (TConfig : bit_field_config)
    (TStorage : scalar) : scalar :=
  match type TConfig with
  | None =>
      match type (TDefaultConfig f) with
      | None => TStorage
      | Some T => T
      end
  | Some T => T
  end.

(** [bit_field::get<TConfig>(value)] for a [value] of type [TStorage]. *)
Definition get (f : bit_field) (TConfig : bit_field_config) (TStorage : scalar)
    (value : Z) : option Z :=
  _ <- guard (bit_field_assignment_strategy.eqb (strategy TConfig)
                bit_field_assignment_strategy.no_override) ;;
  extract_bits (NBits f) (NOffset f) TStorage (effective_storage f TConfig TStorage)
    (effective_offset f TConfig) false value.

(** How a call of [set] ends. *)
Inductive completion :=
| returns_void
| returns_bool (b : bool)
| throws_bit_field_error.

(** The lambda [set_helper] of [set_impl]: the new value of [into]. *)
Definition set_helper (f : bit_field) (TConfig : bit_field_config)
    (TStorage TValue : scalar) (skip_mask : bool) (into value : Z) : option Z :=
  m <- bit_mask TStorage (NOffset f) (NBits f) ;;
  moved <- extract_bits (NBits f) (effective_offset f TConfig) TValue TStorage
             (NOffset f) skip_mask value ;;
  Some (static_cast TStorage
          (or_ TStorage (static_cast TStorage (and_ TStorage into (not_ TStorage m)))
             moved)).

(** The test [static_cast<TUnderlying>(value) & inverse_mask] of the checked
    strategies. *)
Definition has_invalid_bits (f : bit_field) (TConfig : bit_field_config)
    (TValue : scalar) (value : Z) : option bool :=
  let TUnderlying := underlying TValue in
  m <- bit_mask TUnderlying (effective_offset f TConfig) (NBits f) ;;
  let inverse_mask := static_cast TUnderlying (not_ TUnderlying m) in
  Some (negb (and_ TUnderlying (static_cast TUnderlying value) inverse_mask =? 0)).

(** [bit_field::set_impl<TConfig>(into, value)] for [into] of type [TStorage]
    and [value] of type [TValue]: the value of [into] afterwards and how the call
    ends.  Both branches of the run-time test are instantiated. *)
Definition set_impl (f : bit_field) (TConfig : bit_field_config)
    (TStorage TValue : scalar) (into value : Z) : option (Z * completion) :=
  _ <- guard (match type TConfig with None => true | Some _ => false end) ;;
  match effective_strategy f TConfig with
  | bit_field_assignment_strategy.unchecked =>
      into' <- set_helper f TConfig TStorage TValue true into value ;;
      Some (into', returns_void)
  | bit_field_assignment_strategy.mask =>
      into' <- set_helper f TConfig TStorage TValue false into value ;;
      Some (into', returns_void)
  | bit_field_assignment_strategy.return_bool =>
      invalid <- has_invalid_bits f TConfig TValue value ;;
      into' <- set_helper f TConfig TStorage TValue true into value ;;
      if invalid then Some (into, returns_bool false)
      else Some (into', returns_bool true)
  | bit_field_assignment_strategy.exception =>
      invalid <- has_invalid_bits f TConfig TValue value ;;
      into' <- set_helper f TConfig TStorage TValue true into value ;;
      if invalid then Some (into, throws_bit_field_error)
      else Some (into', returns_void)
  | bit_field_assignment_strategy.no_override => None
  end.

(** [bit_field::set<TConfig>(into, value)]: both overloads forward to
    [set_impl]; the one selected for [return_bool] returns its [bool]. *)
Definition set := set_impl.

(** ** counter.hpp *)

(** A set of overloads of one function name: the [N] of every
    [counter<N> name(counter<N>)] in it, latest first.  It stands for the
    overloads a class has declared, and for what a lookup of the name finds. *)
Definition counter_state := list Z.

(** [counter<N>] derives from [counter<N - 1>], down to the specialisation
    [counter<0>]: completing it nests [N] instantiations, and the compiler
    stops at its limit, 900 unless told otherwise for GCC, the compiler the
    library is written for.  [N] is an [unsigned] template argument. *)
Definition template_depth : Z := 900.

Definition instantiates (N : Z) : bool := (0 <=? N) && (N <=? template_depth).

(** [COUNTER_INITIALIZE(name, initial_value)]. *)
Definition COUNTER_INITIALIZE (initial_value : Z) : counter_state :=
  [initial_value].

(** The overload that wins for the argument [counter<max_value>{}]: one taking
    [counter<N>] is viable when [counter<max_value>] derives from
    [counter<N>], that is [N <= max_value]; the nearest base wins. *)
Fixpoint best_viable (declared : counter_state) (max_value : Z) : option Z :=
  match declared with
  | [] => None
  | N :: rest =>
      if N <=? max_value then
        match best_viable rest max_value with
        | Some M => Some (Z.max N M)
        | None => Some N
        end
      else best_viable rest max_value
  end.

(** [COUNTER_VALUE(name, max_value)], [name] being the overloads the lookup
    finds.  The call [name(counter<max_value>{})] completes
    [counter<max_value>], and overload resolution completes the parameter
    type of every overload, viable or not. *)
Definition COUNTER_VALUE (name : counter_state) (max_value : Z) : option Z :=
  _ <- guard (instantiates max_value && forallb instantiates name) ;;
  best_viable name max_value.

(** [COUNTER_ADD(name, add_value, max_value)] reads the counter [name] and
    declares one more overload of the function [count] -- the macro writes
    [count], whatever [name] is.  [count] is the overloads of that name
    declared so far in the class the macro is used in; the result is what the
    class has declared afterwards.  The sum is [unsigned]; a member function
    cannot be declared twice. *)
Definition COUNTER_ADD (name count : counter_state) (add_value max_value : Z)
  : option counter_state :=
  v <- COUNTER_VALUE name max_value ;;
  let N := u32 (v + add_value) in
  _ <- guard (negb (existsb (Z.eqb N) count)) ;;
  Some (N :: count).

(** ** bit_field_builder.hpp *)

(** [detail::make_config<TDefaultConfig, TArgs...>], [TArgs] empty or one
    configuration. *)
Definition make_config (TDefaultConfig : bit_field_config)
    (TArgs : option bit_field_config) : bit_field_config :=
  match TArgs with
  | None => TDefaultConfig
  | Some given_config =>
      {| type := match type given_config with
                 | None => type TDefaultConfig
                 | Some T => Some T
                 end;
         offset := if negb (offset given_config =? no_override)
                   then offset given_config else offset TDefaultConfig;
         strategy := match strategy given_config with
                     | bit_field_assignment_strategy.no_override =>
                         strategy TDefaultConfig
                     | s => s
                     end |}
  end.

(** One line of the body of a class derived from [bit_field_builder]. *)
Inductive declaration :=
| BIT_FIELD (num_bits : Z) (config : option bit_field_config)
| BIT_FIELD_PAD (num_bits : Z).

Definition num_bits_of (d : declaration) : Z :=
  match d with
  | BIT_FIELD n _ | BIT_FIELD_PAD n => n
  end.

(** A class derived from [bit_field_builder<TDerived, T, TDefaultConfig>] at
    some point of its body: the overloads of [count] the derived class has
    declared itself, and its fields, in declaration order. *)
Record bit_field_builder := {
  value_type : scalar;
  default_config : bit_field_config;
  count : counter_state;
  fields : list bit_field
}.

Definition max_field (b : bit_field_builder) : Z := bits (value_type b).

(** The class before its first declaration: [count] is declared in the base
    only. *)
Definition bit_field_builder_init (T : scalar) (TDefaultConfig : bit_field_config)
  : option bit_field_builder :=
  _ <- guard (is_integral T || is_byte T) ;;
  Some {| value_type := T; default_config := TDefaultConfig;
          count := []; fields := [] |}.

(** What the name [count] finds in the derived class, written [count] or
    [TDerived::count]: the overload [bit_field_builder] declares with
    [COUNTER_INITIALIZE(count, 0)] as long as the derived class has none; once
    it has one, its own, which hide the inherited one. *)
Definition lookup_count (b : bit_field_builder) : counter_state :=
  match count b with
  | [] => COUNTER_INITIALIZE 0
  | own => own
  end.

(** [BIT_FIELD_PAD(num_bits)]. *)
Definition declare_pad (b : bit_field_builder) (num_bits : Z)
  : option bit_field_builder :=
  count' <- COUNTER_ADD (lookup_count b) (count b) num_bits (max_field b) ;;
  Some {| value_type := value_type b; default_config := default_config b;
          count := count'; fields := fields b |}.

(** [BIT_FIELD(name, num_bits, ...)]: the assertion, the field type at the
    current counter value, then the padding step. *)
Definition declare_field (b : bit_field_builder) (num_bits : Z)
    (config : option bit_field_config) : option bit_field_builder :=
  current <- COUNTER_VALUE (lookup_count b) (max_field b) ;;
  _ <- guard (u32 (current + num_bits) <=? max_field b) ;;
  bits_arg <- size_t_arg num_bits ;;
  let field := {| NBits := bits_arg; NOffset := current;
                  TDefaultConfig := make_config (default_config b) config |} in
  b' <- declare_pad b num_bits ;;
  Some {| value_type := value_type b'; default_config := default_config b';
          count := count b'; fields := fields b' ++ [field] |}.

Definition declare (b : bit_field_builder) (d : declaration)
  : option bit_field_builder :=
  match d with
  | BIT_FIELD n config => declare_field b n config
  | BIT_FIELD_PAD n => declare_pad b n
  end.

Fixpoint declare_all (b : bit_field_builder) (ds : list declaration)
  : option bit_field_builder :=
  match ds with
  | [] => Some b
  | d :: rest => b' <- declare b d ;; declare_all b' rest
  end.

(** The whole class: base, then the declarations in order. *)
Definition define_class (T : scalar) (TDefaultConfig : bit_field_config)
    (ds : list declaration) : option bit_field_builder :=
  b <- bit_field_builder_init T TDefaultConfig ;; declare_all b ds.

(** [bit_field_builder::is_complete()]. *)
Definition is_complete (b : bit_field_builder) : option bool :=
  v <- COUNTER_VALUE (lookup_count b) (max_field b) ;;
  Some (v =? max_field b).

(** The generated accessors [get_name<TConfig>()] and
    [set_name<TConfig>(value)] of the [i]-th field, on an instance whose
    [raw_value] is given. *)
Definition get_field (b : bit_field_builder) (i : nat) (TConfig : bit_field_config)
    (raw_value : Z) : option Z :=
  f <- nth_error (fields b) i ;;
  get f TConfig (value_type b) raw_value.

Definition set_field (b : bit_field_builder) (i : nat) (TConfig : bit_field_config)
    (TValue : scalar) (raw_value value : Z) : option (Z * completion) :=
  f <- nth_error (fields b) i ;;
  set f TConfig (value_type b) TValue raw_value value.

(** The control byte of the repository's builder test: three fields filling
    a [std::uint8_t]. *)
Definition m_sequence_control : option bit_field_builder :=
  let as_type T := Some {| type := Some T; offset := no_override;
                           strategy := bit_field_assignment_strategy.no_override |} in
  define_class uint8_t bit_field_config_default
    [BIT_FIELD 5 (as_type uint8_t); BIT_FIELD 2 (as_type enum_int);
     BIT_FIELD 1 (as_type enum_int)].

(** ** Vocabulary of the statements *)

(** Bit [k] of the value [bit_mask<T, NStart, NCount>] has in a type of up to
    64 bits: the span, and -- [1 << 31] being a negative [int] -- every bit
    from 32 up once the span contains bit 31. *)
Definition mask_bit (NStart NCount k : Z) : bool :=
  ((NStart <=? k) && (k <? NStart + NCount))
  || ((32 <=? k) && (NStart <=? 31) && (31 <? NStart + NCount)).

(** Bit [k] lies in the span of [count] bits from [start]. *)
Definition in_span (start count k : Z) : bool :=
  (start <=? k) && (k <? start + count).

(** A value of type [T] with no bit set outside the span. *)
Definition within_span (T : scalar) (start count v : Z) : Prop :=
  forall k, 0 <= k < bits T -> Z.testbit v k = true -> start <= k < start + count.

(** The same as a test over the bit positions of [T]. *)
Definition bit_positions (T : scalar) : list Z :=
  map Z.of_nat (seq 0 (Z.to_nat (bits T))).

Definition within_spanb (T : scalar) (start count v : Z) : bool :=
  forallb (fun k => implb (Z.testbit v k) (in_span start count k)) (bit_positions T).

(** Two values of type [T] with the same bits in the span. *)
Definition agree_on_span (T : scalar) (start count a b : Z) : Prop :=
  forall k, 0 <= k < bits T -> start <= k < start + count ->
            Z.testbit a k = Z.testbit b k.

(** A configuration with its strategy replaced. *)
Definition with_strategy (c : bit_field_config) (s : bit_field_assignment_strategy.t)
  : bit_field_config :=
  {| type := type c; offset := offset c; strategy := s |}.

(** The three things an offset attribute can say, and one layer of the
    resolution: a position stands, keep-source-position is the field's own
    offset, unspecified defers to the layer below. *)
Inductive offset_setting :=
| unspecified
| keep_source_position
| position (n : Z).

Definition offset_setting_of (o : Z) : offset_setting :=
  if o =? no_override then unspecified
  else if o =? no_shift then keep_source_position
  else position o.

Definition resolve_offset (own : Z) (s : offset_setting) (lower : Z) : Z :=
  match s with
  | unspecified => lower
  | keep_source_position => own
  | position n => n
  end.

(** The bits a sequence of declarations asks for, and the number of fields
    among them. *)
Definition total_bits (ds : list declaration) : Z :=
  fold_right Z.add 0 (map num_bits_of ds).

Definition is_field (d : declaration) : bool :=
  match d with BIT_FIELD _ _ => true | BIT_FIELD_PAD _ => false end.

Definition field_count (ds : list declaration) : nat :=
  length (filter is_field ds).

(** The fields a sequence of declarations lays out from offset [start]. *)
Fixpoint laid_out (TDefault : bit_field_config) (start : Z) (ds : list declaration)
  : list bit_field :=
  match ds with
  | [] => []
  | BIT_FIELD n c :: rest =>
      {| NBits := n; NOffset := start; TDefaultConfig := make_config TDefault c |}
        :: laid_out TDefault (start + n) rest
  | BIT_FIELD_PAD n :: rest => laid_out TDefault (start + n) rest
  end.

(** The overloads of a counter that has reached [v]: the latest is for [v],
    the earlier ones for smaller values. *)
Definition counter_at (c : counter_state) (v : Z) : Prop :=
  exists rest, c = v :: rest /\ Forall (fun N => 0 <= N < v) rest.

(** A class that has allocated [v] bits: nothing declared yet and [v] is 0,
    or its own overloads of [count] have reached [v]. *)
Definition allocated (b : bit_field_builder) (v : Z) : Prop :=
  (count b = [] /\ v = 0) \/ counter_at (count b) v.

(** The documented 32-bit example: five bits, two bits read as an unshifted
    byte, 22 bits of padding, three bits. *)
Definition my_bit_field_declarations : list declaration :=
  [BIT_FIELD 5 None;
   BIT_FIELD 2 (Some {| type := Some Byte; offset := no_shift;
                        strategy := bit_field_assignment_strategy.no_override |});
   BIT_FIELD_PAD 22;
   BIT_FIELD 3 None].

Definition my_bit_field : option bit_field_builder :=
  define_class uint32_t bit_field_config_default my_bit_field_declarations.

(** A one-bit field at bit 31 and a 32-bit field at bit 0, for 64-bit words. *)
Definition bit31 (c : bit_field_config) : bit_field :=
  {| NBits := 1; NOffset := 31; TDefaultConfig := c |}.

Definition low32 : bit_field :=
  {| NBits := 32; NOffset := 0; TDefaultConfig := bit_field_config_default |}.

Definition unshifted (s : bit_field_assignment_strategy.t) : bit_field_config :=
  {| type := None; offset := no_shift; strategy := s |}.

(** [COUNTER_ADD(count, a, max_value)] once for each amount, in order, in the
    class that declared the counter [count] with overloads [c]. *)
Fixpoint COUNTER_ADD_each (c : counter_state) (add_values : list Z) (max_value : Z)
  : option counter_state :=
  match add_values with
  | [] => Some c
  | a :: rest =>
      c' <- COUNTER_ADD c c a max_value ;; COUNTER_ADD_each c' rest max_value
  end.

Definition sum_of (l : list Z) : Z := fold_right Z.add 0 l.

(** The counter of the repository's counter test: from 0, plus 1, plus 2,
    read against 256. *)
Definition counter_test : option counter_state :=
  COUNTER_ADD_each (COUNTER_INITIALIZE 0) [1; 2] 256.

(** Fields one after the other from [lo] on, the last ending at [hi] at the
    latest. *)
Fixpoint in_order (lo : Z) (fs : list bit_field) (hi : Z) : Prop :=
  match fs with
  | [] => lo <= hi
  | f :: rest => lo <= NOffset f /\ 0 <= NBits f /\ in_order (NOffset f + NBits f) rest hi
  end.

(** One layer of the resolution of a strategy and of a type: what is set
    stands, what is not defers to the layer below. *)
Definition strategy_or (s lower : bit_field_assignment_strategy.t)
  : bit_field_assignment_strategy.t :=
  match s with
  | bit_field_assignment_strategy.no_override => lower
  | _ => s
  end.

Definition type_or (t : option scalar) (lower : scalar) : scalar :=
  match t with
  | Some T => T
  | None => lower
  end.

(** What every accepted step keeps: the fields so far lie in order inside the
    storage, all but the first at least one bit wide, and the counter, where
    it can be read, is not below the end of the last one. *)
Definition builder_ok (b : bit_field_builder) : Prop :=
  exists hi,
    in_order 0 (fields b) hi /\ hi <= max_field b /\
    (count b = [] -> fields b = []) /\
    Forall (fun f => 0 < NBits f) (tl (fields b)) /\
    (forall v, COUNTER_VALUE (lookup_count b) (max_field b) = Some v -> hi <= v).

(** * The repository's own tests, replayed on the embedding *)

(** The assertions of the repository's test of [bits.hpp]. *)
Example bits_test :
  bits uint8_t = 8 /\ bits (Integral W16 true) = 16 /\
  bits uint32_t = 32 /\ bits (Integral W64 true) = 64.
Proof. repeat split. Qed.

Example bit_mask_test :
  bit_mask uint8_t 0 1 = Some 1 /\ bit_mask uint8_t 0 2 = Some 3 /\
  bit_mask uint8_t 0 3 = Some 7 /\ bit_mask uint8_t 2 3 = Some 28 /\
  bit_mask uint8_t 7 1 = Some 128.
Proof. repeat split. Qed.

Example extract_bits_test :
  extract_bits 2 1 uint8_t uint8_t 0 false 250 = Some 1 /\
  extract_bits 2 6 uint8_t uint8_t 0 false 191 = Some 2 /\
  extract_bits 2 1 uint8_t Byte 0 false 252 = Some 2 /\
  extract_bits 2 1 uint8_t Byte 2 false 254 = Some 12 /\
  extract_bits 2 1 uint8_t Byte 3 false 250 = Some 8 /\
  extract_bits 2 1 uint8_t Byte 3 true 248 = Some 224 /\
  extract_bits 2 1 uint8_t Byte 3 true 254 = Some 248.
Proof. repeat split. Qed.

(** The assertions of the repository's test of [bit_field.hpp]. *)
Example bit_field_get_test :
  let test_field_1 := {| NBits := 3; NOffset := 0; TDefaultConfig := bit_field_config_default |} in
  let test_field_2 := {| NBits := 3; NOffset := 0;
      TDefaultConfig := {| type := Some uint8_t; offset := 2;
                           strategy := bit_field_assignment_strategy.no_override |} |} in
  let test_field_6 := {| NBits := 3; NOffset := 2;
      TDefaultConfig := {| type := Some enum_int; offset := no_override;
                           strategy := bit_field_assignment_strategy.no_override |} |} in
  get test_field_1 bit_field_config_default int_t 255 = Some 7 /\
  get test_field_2 bit_field_config_default int_t 255 = Some 28 /\
  get test_field_6 bit_field_config_default int_t 8 = Some 2.
Proof. repeat split. Qed.

Example bit_field_set_test :
  let cfg s := {| type := Some enum_int; offset := no_override; strategy := s |} in
  set {| NBits := 3; NOffset := 2; TDefaultConfig := cfg bit_field_assignment_strategy.mask |}
    bit_field_config_default uint8_t enum_int 0 255 = Some (28, returns_void) /\
  set {| NBits := 3; NOffset := 0; TDefaultConfig := cfg bit_field_assignment_strategy.unchecked |}
    bit_field_config_default uint8_t enum_int 0 255 = Some (255, returns_void) /\
  set {| NBits := 3; NOffset := 0; TDefaultConfig := cfg bit_field_assignment_strategy.return_bool |}
    bit_field_config_default uint8_t enum_int 0 2 = Some (2, returns_bool true) /\
  set {| NBits := 3; NOffset := 0; TDefaultConfig := cfg bit_field_assignment_strategy.return_bool |}
    bit_field_config_default uint8_t enum_int 0 255 = Some (0, returns_bool false).
Proof. repeat split. Qed.

Example m_sequence_control_test :
  (b <- m_sequence_control ;; is_complete b) = Some true /\
  (b <- m_sequence_control ;; get_field b 0 bit_field_config_default 31) = Some 31 /\
  (b <- m_sequence_control ;; get_field b 1 bit_field_config_default 96) = Some 3 /\
  (b <- m_sequence_control ;; get_field b 2 bit_field_config_default 128) = Some 1 /\
  (b <- m_sequence_control ;;
   set_field b 0 bit_field_config_default uint8_t 0 31) = Some (31, returns_void).
Proof. repeat split. Qed.

(** * Bits of converted values *)

Lemma bits_range (T : scalar) : 8 <= bits T <= 64.
Proof. destruct T as [[] ?| |[] ?]; simpl; lia. Qed.

Lemma bits_promote (T : scalar) : bits T <= bits (promote T) <= 64.
Proof. destruct T as [[] ?| |[] ?]; simpl; lia. Qed.

Lemma bits_result_type (T : scalar) : bits T <= bits (result_type T) <= 64.
Proof. destruct T as [[] ?| |[] ?]; simpl; lia. Qed.

Lemma static_cast_mod (T : scalar) (z : Z) :
  static_cast T z mod 2 ^ bits T = z mod 2 ^ bits T.
Proof.
  unfold static_cast.
  pose proof (bits_range T).
  assert (0 < 2 ^ bits T) by (apply Z.pow_pos_nonneg; lia).
  destruct (is_signed T && (2 ^ (bits T - 1) <=? z mod 2 ^ bits T)).
  - replace (z mod 2 ^ bits T - 2 ^ bits T)
      with (z mod 2 ^ bits T + (-1) * 2 ^ bits T) by lia.
    rewrite Z.mod_add by lia. apply Z.mod_mod; lia.
  - apply Z.mod_mod; lia.
Qed.

Lemma pow2_half (n : Z) : 1 <= n -> 2 ^ n = 2 * 2 ^ (n - 1).
Proof.
  intros. replace n with (1 + (n - 1)) at 1 by lia.
  rewrite Z.pow_add_r by lia. reflexivity.
Qed.

Lemma static_cast_in_range (T : scalar) (z : Z) : in_range T (static_cast T z).
Proof.
  unfold in_range, static_cast.
  pose proof (bits_range T).
  assert (0 < 2 ^ (bits T - 1)) by (apply Z.pow_pos_nonneg; lia).
  pose proof (pow2_half (bits T) ltac:(lia)).
  pose proof (Z.mod_pos_bound z (2 ^ bits T) ltac:(lia)).
  destruct (is_signed T); simpl.
  - destruct (Z.leb_spec (2 ^ (bits T - 1)) (z mod 2 ^ bits T)); lia.
  - lia.
Qed.

Lemma static_cast_id (T : scalar) (v : Z) : in_range T v -> static_cast T v = v.
Proof.
  unfold in_range, static_cast.
  pose proof (bits_range T).
  assert (0 < 2 ^ (bits T - 1)) by (apply Z.pow_pos_nonneg; lia).
  pose proof (pow2_half (bits T) ltac:(lia)).
  destruct (is_signed T); simpl; intros Hv.
  - destruct (Z_lt_le_dec v 0).
    + replace (v mod 2 ^ bits T) with (v + 2 ^ bits T).
      * destruct (Z.leb_spec (2 ^ (bits T - 1)) (v + 2 ^ bits T)); lia.
      * apply Z.mod_unique with (q := -1); lia.
    + rewrite Z.mod_small by lia.
      destruct (Z.leb_spec (2 ^ (bits T - 1)) v); lia.
  - apply Z.mod_small; lia.
Qed.

(** The bits of a value in range above the width: the sign bit of a signed
    value, zero for an unsigned one. *)
Lemma small_high_bits (v n k : Z) :
  0 <= v < 2 ^ n -> 0 <= n <= k -> Z.testbit v k = false.
Proof.
  intros Hv Hk. destruct (Z.eq_dec v 0) as [E|E].
  - subst. apply Z.bits_0.
  - apply Z.bits_above_log2; [lia|].
    apply Z.lt_le_trans with n; [|lia].
    apply Z.log2_lt_pow2; lia.
Qed.

Lemma in_range_high_bits (T : scalar) (v k : Z) :
  in_range T v -> bits T <= k ->
  Z.testbit v k = is_signed T && Z.testbit v (bits T - 1).
Proof.
  unfold in_range. pose proof (bits_range T).
  destruct (is_signed T); simpl; intros Hv Hk.
  - destruct (Z_lt_le_dec v 0).
    + assert (Hn : forall j, bits T - 1 <= j -> Z.testbit (Z.lnot v) j = false).
      { intros j Hj. apply small_high_bits with (n := bits T - 1);
          unfold Z.lnot; lia. }
      pose proof (Hn k ltac:(lia)) as H1. pose proof (Hn (bits T - 1) ltac:(lia)) as H2.
      rewrite Z.lnot_spec in H1, H2 by lia.
      destruct (Z.testbit v k), (Z.testbit v (bits T - 1)); simpl in *; congruence.
    + rewrite (small_high_bits v (bits T - 1) k), (small_high_bits v (bits T - 1) (bits T - 1))
        by lia.
      reflexivity.
  - apply small_high_bits with (n := bits T); lia.
Qed.

(** Every bit of a converted value. *)
Lemma static_cast_testbit (T : scalar) (z k : Z) :
  0 <= k ->
  Z.testbit (static_cast T z) k =
    if k <? bits T then Z.testbit z k
    else is_signed T && Z.testbit z (bits T - 1).
Proof.
  intros Hk. pose proof (bits_range T).
  assert (Hlow : forall j, 0 <= j < bits T ->
            Z.testbit (static_cast T z) j = Z.testbit z j).
  { intros j Hj.
    rewrite <- (Z.mod_pow2_bits_low (static_cast T z) (bits T) j) by lia.
    rewrite static_cast_mod. apply Z.mod_pow2_bits_low; lia. }
  destruct (Z.ltb_spec k (bits T)).
  - apply Hlow; lia.
  - rewrite (in_range_high_bits T) by (auto using static_cast_in_range).
    rewrite Hlow by lia. reflexivity.
Qed.

Lemma in_range_ext (T : scalar) (a b : Z) :
  in_range T a -> in_range T b ->
  (forall k, 0 <= k < bits T -> Z.testbit a k = Z.testbit b k) -> a = b.
Proof.
  intros Ha Hb H. pose proof (bits_range T).
  apply Z.bits_inj'. intros k Hk.
  destruct (Z_lt_le_dec k (bits T)).
  - apply H; lia.
  - rewrite (in_range_high_bits T a), (in_range_high_bits T b) by assumption.
    rewrite H by lia. reflexivity.
Qed.

Lemma static_cast_ext (T : scalar) (a b : Z) :
  (forall k, 0 <= k < bits T -> Z.testbit a k = Z.testbit b k) ->
  static_cast T a = static_cast T b.
Proof.
  intros H. apply (in_range_ext T); auto using static_cast_in_range.
  intros k Hk. rewrite !static_cast_testbit by lia.
  destruct (Z.ltb_spec k (bits T)); [apply H|]; lia.
Qed.

Ltac cmp_cases :=
  repeat match goal with
    | |- context [?a <? ?b] => destruct (Z.ltb_spec a b)
    | |- context [?a <=? ?b] => destruct (Z.leb_spec a b)
    | |- context [?a =? ?b] => destruct (Z.eqb_spec a b)
    end.

Lemma guard_true (b : bool) : b = true -> guard b = Some tt.
Proof. intros ->. reflexivity. Qed.

Lemma guard_inv (b : bool) (u : unit) : guard b = Some u -> b = true.
Proof. destruct b; [reflexivity|discriminate]. Qed.

Lemma shl_int_one (i : Z) :
  0 <= i < 32 ->
  shl int_t 1 i = Some (static_cast int_t (2 ^ i)).
Proof.
  intros Hi. unfold shl. rewrite guard_true.
  - simpl bind. rewrite Z.shiftl_1_l. f_equal.
    apply static_cast_id, static_cast_in_range.
  - simpl. apply andb_true_intro; split; [apply Z.leb_le|apply Z.ltb_lt]; lia.
Qed.

Lemma shl_int_one_undefined (i : Z) : 32 <= i -> shl int_t 1 i = None.
Proof.
  intros Hi. unfold shl. simpl bits.
  destruct (Z.ltb_spec i 32); [lia|].
  rewrite andb_false_r. reflexivity.
Qed.

(** The bits one turn of the loop adds. *)
Lemma mask_step_testbit (T : scalar) (i value k : Z) :
  0 <= i < 32 -> 0 <= k < bits T ->
  Z.testbit (static_cast T (or_ T value (static_cast T (static_cast int_t (2 ^ i))))) k
  = Z.testbit value k || mask_bit i 1 k.
Proof.
  intros Hi Hk. pose proof (bits_range T). pose proof (bits_result_type T).
  unfold or_, mask_bit.
  rewrite !static_cast_testbit, Z.lor_spec, !static_cast_testbit by lia.
  rewrite !Z.pow2_bits_eqb by lia.
  change (bits int_t) with 32. change (is_signed int_t) with true.
  destruct (Z.testbit value k); simpl; cmp_cases; try lia; reflexivity.
Qed.

Lemma mask_bit_step (i n k : Z) :
  0 <= n -> mask_bit i 1 k || mask_bit (i + 1) n k = mask_bit i (n + 1) k.
Proof.
  intros Hn. unfold mask_bit. cmp_cases; simpl; try lia; reflexivity.
Qed.

Lemma bit_mask_loop_spec (T : scalar) (n : nat) :
  forall i value,
    0 <= i -> i + Z.of_nat n <= 32 -> in_range T value ->
    exists m, bit_mask_loop T n i value = Some m /\ in_range T m /\
      forall k, 0 <= k < bits T ->
        Z.testbit m k = Z.testbit value k || mask_bit i (Z.of_nat n) k.
Proof.
  induction n as [|n IH]; intros i value Hi Hn Hv.
  - exists value. repeat split; auto.
    intros k Hk. unfold mask_bit. simpl.
    cmp_cases; simpl; try lia; rewrite ?orb_false_r; reflexivity.
  - cbn [bit_mask_loop]. rewrite shl_int_one by lia. cbn [bind].
    destruct (IH (i + 1)
                (static_cast T (or_ T value (static_cast T (static_cast int_t (2 ^ i))))))
      as (m & Hm & Hr & Hb); [lia|lia|apply static_cast_in_range|].
    exists m. repeat split; auto.
    intros k Hk. rewrite Hb, mask_step_testbit by lia.
    rewrite <- orb_assoc, mask_bit_step by lia.
    rewrite Nat2Z.inj_succ. unfold Z.succ. reflexivity.
Qed.

Lemma bit_mask_loop_undefined (T : scalar) (n : nat) :
  forall i value,
    0 <= i -> 32 < i + Z.of_nat (S n) -> bit_mask_loop T (S n) i value = None.
Proof.
  induction n as [|n IH]; intros i value Hi Hn; cbn [bit_mask_loop] in *;
    destruct (Z_lt_le_dec i 32).
  - lia.
  - rewrite shl_int_one_undefined by lia. reflexivity.
  - rewrite shl_int_one by lia. cbn [bind]. apply IH; lia.
  - rewrite shl_int_one_undefined by lia. reflexivity.
Qed.

Lemma unsigned_arg_small (z : Z) : 0 <= z < 2 ^ 32 -> unsigned_arg z = Some z.
Proof.
  intros Hz. unfold unsigned_arg. rewrite guard_true; [reflexivity|].
  apply andb_true_intro; split; [apply Z.leb_le|apply Z.ltb_lt]; lia.
Qed.

Lemma size_t_arg_small (z : Z) : 0 <= z < 2 ^ 64 -> size_t_arg z = Some z.
Proof.
  intros Hz. unfold size_t_arg. rewrite guard_true; [reflexivity|].
  apply andb_true_intro; split; [apply Z.leb_le|apply Z.ltb_lt]; unfold size_t_bits; lia.
Qed.

Lemma u32_small (z : Z) : 0 <= z < 2 ^ 32 -> u32 z = z.
Proof. intros. unfold u32. apply Z.mod_small; lia. Qed.

Lemma usize_small (z : Z) : 0 <= z < 2 ^ 64 -> usize z = z.
Proof. intros. unfold usize, size_t_bits. apply Z.mod_small; lia. Qed.

Lemma static_cast_zero (T : scalar) : static_cast T 0 = 0.
Proof.
  apply static_cast_id. unfold in_range. pose proof (bits_range T).
  assert (0 < 2 ^ (bits T - 1)) by (apply Z.pow_pos_nonneg; lia).
  assert (0 < 2 ^ bits T) by (apply Z.pow_pos_nonneg; lia).
  destruct (is_signed T); lia.
Qed.

(** What [bit_mask] computes on the domain of its [requires] clause. *)
Lemma bit_mask_defined (T : scalar) (NStart NCount : Z) :
  (is_integral T || is_byte T) = true ->
  0 <= NStart -> 0 < NCount -> NStart + NCount <= bits T -> NStart + NCount <= 32 ->
  exists m, bit_mask T NStart NCount = Some m /\ in_range T m /\
    forall k, 0 <= k < bits T -> Z.testbit m k = mask_bit NStart NCount k.
Proof.
  intros HT Hs Hc Hw H32. unfold bit_mask.
  rewrite !unsigned_arg_small by lia. cbn [bind].
  rewrite u32_small by lia.
  rewrite guard_true.
  2:{ rewrite HT. simpl. apply andb_true_intro; split; [apply Z.ltb_lt|apply Z.leb_le]; lia. }
  cbn [bind].
  destruct (bit_mask_loop_spec T (Z.to_nat (NStart + NCount - NStart)) NStart (static_cast T 0))
    as (m & Hm & Hr & Hb); [lia|lia|apply static_cast_in_range|].
  exists m. repeat split; auto.
  intros k Hk. rewrite Hb by lia. rewrite static_cast_zero, Z.bits_0. simpl.
  f_equal. lia.
Qed.

Lemma bit_mask_undefined (T : scalar) (NStart NCount : Z) :
  0 <= NStart -> 0 < NCount -> NStart + NCount <= bits T -> 32 < NStart + NCount ->
  bit_mask T NStart NCount = None.
Proof.
  intros Hs Hc Hw H32. pose proof (bits_range T). unfold bit_mask.
  rewrite !unsigned_arg_small by lia. cbn [bind].
  rewrite u32_small by lia.
  destruct (guard _); [cbn [bind]|reflexivity].
  destruct (Z.to_nat (NStart + NCount - NStart)) as [|n] eqn:E; [lia|].
  apply bit_mask_loop_undefined; lia.
Qed.

(** Reading a successful [bit_mask] backwards. *)
Lemma bit_mask_inv (T : scalar) (NStart NCount m : Z) :
  bit_mask T NStart NCount = Some m -> NStart + NCount < 2 ^ 32 ->
  (is_integral T || is_byte T) = true /\
  0 <= NStart /\ 0 < NCount /\ NStart + NCount <= bits T /\ NStart + NCount <= 32 /\
  in_range T m /\
  forall k, 0 <= k < bits T -> Z.testbit m k = mask_bit NStart NCount k.
Proof.
  intros Hm Hsum. pose proof Hm as Hm'. unfold bit_mask, unsigned_arg in Hm.
  destruct (guard ((0 <=? NStart) && (NStart <? 2 ^ 32))) eqn:G1; [|discriminate].
  destruct (guard ((0 <=? NCount) && (NCount <? 2 ^ 32))) eqn:G2; [|discriminate].
  cbn [bind] in Hm.
  destruct (guard _) eqn:G3 in Hm; [|discriminate].
  apply guard_inv in G1, G2, G3.
  apply andb_prop in G1 as [G1a G1b]. apply andb_prop in G2 as [G2a G2b].
  apply andb_prop in G3 as [G3 G3c]. apply andb_prop in G3 as [G3a G3b].
  apply Z.leb_le in G1a, G2a, G3c. apply Z.ltb_lt in G1b, G2b, G3b.
  rewrite u32_small in G3c by lia.
  destruct (Z_le_gt_dec (NStart + NCount) 32) as [H32|H32].
  - destruct (bit_mask_defined T NStart NCount) as (m' & Hm1 & Hr & Hb); auto.
    rewrite Hm' in Hm1. injection Hm1 as <-. repeat split; auto; lia.
  - rewrite bit_mask_undefined in Hm' by lia. discriminate.
Qed.

Lemma bits_underlying (T : scalar) : bits (underlying T) = bits T.
Proof. destruct T; reflexivity. Qed.

Lemma is_signed_underlying (T : scalar) : is_signed (underlying T) = is_signed T.
Proof. destruct T; reflexivity. Qed.

Lemma static_cast_underlying (T : scalar) (z : Z) :
  static_cast (underlying T) z = static_cast T z.
Proof. destruct T; reflexivity. Qed.

Lemma underlying_kind (T : scalar) :
  (is_integral (underlying T) || is_byte (underlying T)) = true.
Proof. destruct T; reflexivity. Qed.

Lemma mask_bit_in_span (s c k : Z) : s <= k < s + c -> mask_bit s c k = true.
Proof.
  intros H. unfold mask_bit. lia.
Qed.

Lemma bit_mask_args (T : scalar) (NStart NCount m : Z) :
  bit_mask T NStart NCount = Some m ->
  0 <= NStart < 2 ^ 32 /\ 0 <= NCount < 2 ^ 32.
Proof.
  unfold bit_mask, unsigned_arg. intros Hm.
  destruct (guard ((0 <=? NStart) && (NStart <? 2 ^ 32))) eqn:G1; [|discriminate].
  destruct (guard ((0 <=? NCount) && (NCount <? 2 ^ 32))) eqn:G2; [|discriminate].
  apply guard_inv in G1, G2.
  apply andb_prop in G1 as [G1a G1b]. apply andb_prop in G2 as [G2a G2b].
  apply Z.leb_le in G1a, G2a. apply Z.ltb_lt in G1b, G2b. lia.
Qed.

Lemma size_t_arg_inv (z r : Z) : size_t_arg z = Some r -> r = z /\ 0 <= z < 2 ^ 64.
Proof.
  unfold size_t_arg. destruct (guard _) eqn:G; [|discriminate].
  cbn [bind]. intros [= <-]. apply guard_inv in G.
  apply andb_prop in G as [Ga Gb]. apply Z.leb_le in Ga. apply Z.ltb_lt in Gb.
  unfold size_t_bits in Gb. lia.
Qed.

(** Masking a value that lies within the span with a mask that covers the
    span changes nothing. *)
Lemma masked_within_span (T : scalar) (start count v m : Z) :
  within_span T start count v ->
  (forall k, 0 <= k < bits T -> Z.testbit m k = mask_bit start count k) ->
  static_cast T (and_ T (static_cast T v) m) = static_cast T v.
Proof.
  intros Hv Hm. pose proof (bits_range T). pose proof (bits_result_type T).
  apply static_cast_ext. intros k Hk. unfold and_.
  rewrite static_cast_testbit by lia.
  destruct (Z.ltb_spec k (bits (result_type T))); [|lia].
  rewrite Z.land_spec, static_cast_testbit by lia.
  destruct (Z.ltb_spec k (bits T)); [|lia].
  rewrite Hm by lia.
  destruct (Z.testbit v k) eqn:E; [|reflexivity].
  rewrite mask_bit_in_span by (apply Hv; auto; lia). reflexivity.
Qed.

(** On a value within the span, [extract_bits] does the same with and without
    its mask. *)
Lemma extract_bits_skip_mask (NBits NSourceOffset : Z) (TSource TDestination : scalar)
    (NDestinationOffset source : Z) :
  within_span TSource NSourceOffset NBits source ->
  extract_bits NBits NSourceOffset TSource TDestination NDestinationOffset false source
  = extract_bits NBits NSourceOffset TSource TDestination NDestinationOffset true source.
Proof.
  intros Hv. unfold extract_bits.
  destruct (size_t_arg NBits) as [n|] eqn:En; [|reflexivity].
  destruct (size_t_arg NSourceOffset) as [so|] eqn:Eso; [|reflexivity].
  destruct (size_t_arg NDestinationOffset) as [do|] eqn:Edo; [|reflexivity].
  apply size_t_arg_inv in En as [-> Hn], Eso as [-> Hso], Edo as [-> Hdo].
  cbn [bind].
  destruct (guard _) eqn:G; [|reflexivity]. cbn [bind].
  destruct (bit_mask (underlying TSource) NSourceOffset NBits) as [m|] eqn:Em;
    [|reflexivity].
  cbn [bind negb].
  apply guard_inv in G. apply andb_prop in G as [G G3]. apply andb_prop in G as [G1 G2].
  apply Z.leb_le in G2. apply Z.ltb_lt in G1.
  pose proof (bit_mask_args _ _ _ _ Em) as [Hs32 Hc32].
  pose proof (bits_range TSource).
  rewrite usize_small in G2 by lia.
  apply bit_mask_inv in Em as (_ & _ & _ & _ & _ & _ & Hb); [|lia].
  rewrite (masked_within_span (underlying TSource) NSourceOffset NBits source m).
  - reflexivity.
  - unfold within_span. rewrite bits_underlying. exact Hv.
  - exact Hb.
Qed.

Lemma static_cast_int_small (z : Z) : - 2 ^ 31 <= z < 2 ^ 31 -> static_cast int_t z = z.
Proof. intros Hz. apply static_cast_id. unfold in_range. simpl. lia. Qed.

Lemma int_sub_small (a b : Z) : - 2 ^ 31 <= a - b < 2 ^ 31 -> int_sub a b = Some (a - b).
Proof.
  intros H. unfold int_sub. rewrite guard_true; [reflexivity|].
  apply andb_true_intro; split; [apply Z.leb_le|apply Z.ltb_lt]; lia.
Qed.

Lemma shr_defined (T : scalar) (a n : Z) :
  0 <= n < bits T -> shr T a n = Some (static_cast (result_type T) (Z.shiftr a n)).
Proof.
  intros Hn. pose proof (bits_promote T). unfold shr.
  rewrite guard_true; [reflexivity|].
  apply andb_true_intro; split; [apply Z.leb_le|apply Z.ltb_lt]; lia.
Qed.

Lemma shl_defined (T : scalar) (a n : Z) :
  0 <= n < bits T ->
  shl T a n
  = Some (static_cast (result_type T) (static_cast (promote T) (Z.shiftl a n))).
Proof.
  intros Hn. pose proof (bits_promote T). unfold shl.
  rewrite guard_true; [reflexivity|].
  apply andb_true_intro; split; [apply Z.leb_le|apply Z.ltb_lt]; lia.
Qed.

(** [extract_bits] on the domain of its [requires] clause, for a source span
    that [bit_mask] can build: the three branches written out. *)
Lemma extract_bits_unfold (NBits NSourceOffset : Z) (TSource TDestination : scalar)
    (NDestinationOffset : Z) (BSkipMask : bool) (source : Z) :
  0 < NBits -> 0 <= NSourceOffset -> 0 <= NDestinationOffset ->
  NBits + NSourceOffset <= bits TSource -> NBits + NSourceOffset <= 32 ->
  NBits + NDestinationOffset <= bits TDestination ->
  exists m, bit_mask (underlying TSource) NSourceOffset NBits = Some m /\
    in_range (underlying TSource) m /\
    (forall k, 0 <= k < bits TSource -> Z.testbit m k = mask_bit NSourceOffset NBits k) /\
    let TSU := underlying TSource in
    let TDU := underlying TDestination in
    let shift := NSourceOffset - NDestinationOffset in
    let source_bits :=
      if BSkipMask then static_cast TSU source
      else static_cast TSU (and_ TSU (static_cast TSU source) m) in
    extract_bits NBits NSourceOffset TSource TDestination NDestinationOffset
      BSkipMask source
    = Some (static_cast TDestination
              (if shift =? 0 then static_cast TDU source_bits
               else if 0 <? shift
                    then static_cast TDU
                           (static_cast (result_type TSU) (Z.shiftr source_bits shift))
                    else static_cast (result_type TDU)
                           (static_cast (promote TDU)
                              (Z.shiftl (static_cast TDU source_bits) (- shift))))).
Proof.
  intros Hn Hso Hdo Hs H32 Hd.
  pose proof (bits_range TSource). pose proof (bits_range TDestination).
  destruct (bit_mask_defined (underlying TSource) NSourceOffset NBits)
    as (m & Hm & Hr & Hb);
    rewrite ?bits_underlying; auto using underlying_kind; try lia.
  rewrite bits_underlying in Hb.
  exists m. repeat split; auto. cbv zeta.
  unfold extract_bits.
  rewrite !size_t_arg_small by lia. cbn [bind].
  rewrite !usize_small by lia.
  rewrite guard_true.
  2:{ apply andb_true_intro; split; [apply andb_true_intro; split|];
      [apply Z.ltb_lt|apply Z.leb_le|apply Z.leb_le]; lia. }
  cbn [bind]. rewrite Hm. cbn [bind].
  rewrite !static_cast_int_small by lia.
  rewrite int_sub_small by lia. cbn [bind].
  destruct BSkipMask; cbn [negb];
    (destruct (Z.eqb_spec (NSourceOffset - NDestinationOffset) 0); [reflexivity|];
     destruct (Z.ltb_spec 0 (NSourceOffset - NDestinationOffset));
     [rewrite shr_defined by (rewrite bits_underlying; lia)
     |rewrite shl_defined by (rewrite bits_underlying; lia)]; reflexivity).
Qed.

Lemma extract_bits_defined (NBits NSourceOffset : Z) (TSource TDestination : scalar)
    (NDestinationOffset : Z) (BSkipMask : bool) (source : Z) :
  0 < NBits -> 0 <= NSourceOffset -> 0 <= NDestinationOffset ->
  NBits + NSourceOffset <= bits TSource -> NBits + NSourceOffset <= 32 ->
  NBits + NDestinationOffset <= bits TDestination ->
  exists r, extract_bits NBits NSourceOffset TSource TDestination NDestinationOffset
              BSkipMask source = Some r /\ in_range TDestination r.
Proof.
  intros. destruct (extract_bits_unfold NBits NSourceOffset TSource TDestination
                      NDestinationOffset BSkipMask source)
    as (m & _ & _ & _ & E); auto.
  cbv zeta in E. rewrite E. eexists. split; [reflexivity|apply static_cast_in_range].
Qed.

(** The test of the checked strategies passes a value within the span. *)
Lemma has_invalid_bits_within_span (f : bit_field) (TConfig : bit_field_config)
    (TValue : scalar) (value : Z) :
  0 < NBits f -> 0 <= effective_offset f TConfig ->
  effective_offset f TConfig + NBits f <= bits TValue ->
  effective_offset f TConfig + NBits f <= 32 ->
  within_span TValue (effective_offset f TConfig) (NBits f) value ->
  has_invalid_bits f TConfig TValue value = Some false.
Proof.
  intros Hn Ho Hw H32 Hv.
  pose proof (bits_range TValue). pose proof (bits_result_type (underlying TValue)).
  pose proof (bits_promote (underlying TValue)).
  unfold has_invalid_bits.
  destruct (bit_mask_defined (underlying TValue) (effective_offset f TConfig) (NBits f))
    as (m & Hm & Hr & Hb);
    rewrite ?bits_underlying in *; auto using underlying_kind; try lia.
  rewrite Hm. cbn [bind]. f_equal.
  assert (Hlow : forall j, 0 <= j < bits TValue ->
            Z.testbit value j && negb (Z.testbit m j) = false).
  { intros j Hj. rewrite Hb by lia. destruct (Z.testbit value j) eqn:E; [|reflexivity].
    rewrite mask_bit_in_span by (apply Hv; auto). reflexivity. }
  assert (E : Z.land (static_cast (underlying TValue) value)
                (static_cast (underlying TValue) (not_ (underlying TValue) m)) = 0).
  { apply Z.bits_inj'. intros k Hk. rewrite Z.land_spec, Z.bits_0.
    unfold not_.
    rewrite !(static_cast_testbit (underlying TValue)) by lia.
    rewrite !bits_underlying.
    destruct (Z.ltb_spec k (bits TValue)).
    - rewrite !static_cast_testbit by lia.
      destruct (Z.ltb_spec k (bits (result_type (underlying TValue)))); [|lia].
      destruct (Z.ltb_spec k (bits (promote (underlying TValue)))); [|lia].
      rewrite Z.lnot_spec by lia. apply Hlow; lia.
    - rewrite !static_cast_testbit by lia.
      destruct (Z.ltb_spec (bits TValue - 1) (bits (result_type (underlying TValue))));
        [|lia].
      destruct (Z.ltb_spec (bits TValue - 1) (bits (promote (underlying TValue))));
        [|lia].
      rewrite Z.lnot_spec by lia.
      pose proof (Hlow (bits TValue - 1) ltac:(lia)) as Hs.
      destruct (is_signed (underlying TValue)); simpl; [exact Hs|reflexivity]. }
  unfold and_. rewrite E, static_cast_zero. reflexivity.
Qed.

Lemma set_helper_skip_mask (f : bit_field) (TConfig : bit_field_config)
    (TStorage TValue : scalar) (into value : Z) :
  within_span TValue (effective_offset f TConfig) (NBits f) value ->
  set_helper f TConfig TStorage TValue false into value
  = set_helper f TConfig TStorage TValue true into value.
Proof.
  intros Hv. unfold set_helper.
  rewrite extract_bits_skip_mask by exact Hv. reflexivity.
Qed.

Lemma set_helper_defined (f : bit_field) (TConfig : bit_field_config)
    (TStorage TValue : scalar) (skip_mask : bool) (into value : Z) :
  (is_integral TStorage || is_byte TStorage) = true ->
  0 < NBits f -> 0 <= NOffset f -> 0 <= effective_offset f TConfig ->
  NOffset f + NBits f <= bits TStorage -> NOffset f + NBits f <= 32 ->
  effective_offset f TConfig + NBits f <= bits TValue ->
  effective_offset f TConfig + NBits f <= 32 ->
  exists into', set_helper f TConfig TStorage TValue skip_mask into value = Some into'
                /\ in_range TStorage into'.
Proof.
  intros HT Hn Ho He Hw H32 Hvw Hv32. unfold set_helper.
  destruct (bit_mask_defined TStorage (NOffset f) (NBits f)) as (m & Hm & _); auto.
  destruct (extract_bits_defined (NBits f) (effective_offset f TConfig) TValue TStorage
              (NOffset f) skip_mask value) as (r & Hr & _); auto; try lia.
  rewrite Hm, Hr. cbn [bind]. eexists. split; [reflexivity|apply static_cast_in_range].
Qed.

Lemma set_helper_with_strategy (f : bit_field) (c : bit_field_config)
    (s : bit_field_assignment_strategy.t) (TStorage TValue : scalar)
    (skip_mask : bool) (into value : Z) :
  set_helper f (with_strategy c s) TStorage TValue skip_mask into value
  = set_helper f c TStorage TValue skip_mask into value.
Proof. reflexivity. Qed.

Lemma has_invalid_bits_with_strategy (f : bit_field) (c : bit_field_config)
    (s : bit_field_assignment_strategy.t) (TValue : scalar) (value : Z) :
  has_invalid_bits f (with_strategy c s) TValue value
  = has_invalid_bits f c TValue value.
Proof. reflexivity. Qed.

(** [set] under a strategy named at the call. *)
Lemma set_with_strategy (f : bit_field) (c : bit_field_config)
    (s : bit_field_assignment_strategy.t) (TStorage TValue : scalar) (into value : Z) :
  type c = None ->
  set f (with_strategy c s) TStorage TValue into value =
  match s with
  | bit_field_assignment_strategy.unchecked =>
      into' <- set_helper f c TStorage TValue true into value ;;
      Some (into', returns_void)
  | bit_field_assignment_strategy.mask =>
      into' <- set_helper f c TStorage TValue false into value ;;
      Some (into', returns_void)
  | bit_field_assignment_strategy.return_bool =>
      invalid <- has_invalid_bits f c TValue value ;;
      into' <- set_helper f c TStorage TValue true into value ;;
      if invalid then Some (into, returns_bool false)
      else Some (into', returns_bool true)
  | bit_field_assignment_strategy.exception =>
      invalid <- has_invalid_bits f c TValue value ;;
      into' <- set_helper f c TStorage TValue true into value ;;
      if invalid then Some (into, throws_bit_field_error)
      else Some (into', returns_void)
  | bit_field_assignment_strategy.no_override =>
      set f (with_strategy c s) TStorage TValue into value
  end.
Proof.
  intros Hty. unfold set, set_impl. cbn [type with_strategy]. rewrite Hty.
  destruct s; reflexivity.
Qed.

(** The test form of [within_span]. *)
Lemma within_spanb_spec (T : scalar) (start count v : Z) :
  within_spanb T start count v = true <-> within_span T start count v.
Proof.
  unfold within_spanb, within_span, bit_positions, in_span.
  rewrite forallb_forall. pose proof (bits_range T) as Hw. split.
  - intros H k Hk Hb.
    specialize (H k). rewrite Hb in H. cbn [implb] in H.
    assert (Hin : In k (map Z.of_nat (seq 0 (Z.to_nat (bits T))))).
    { apply in_map_iff. exists (Z.to_nat k). split; [lia|].
      apply in_seq. lia. }
    specialize (H Hin). lia.
  - intros H k Hin. apply in_map_iff in Hin as (n & <- & Hn).
    apply in_seq in Hn.
    destruct (Z.testbit v (Z.of_nat n)) eqn:E; [|reflexivity].
    cbn [implb]. specialize (H (Z.of_nat n) ltac:(lia) E). lia.
Qed.

(** Reading an accepted [extract_bits] backwards: the span lies inside the
    source type and below bit 32. *)
Lemma extract_bits_inv (NBits NSourceOffset : Z) (TSource TDestination : scalar)
    (NDestinationOffset : Z) (BSkipMask : bool) (source r : Z) :
  extract_bits NBits NSourceOffset TSource TDestination NDestinationOffset
    BSkipMask source = Some r ->
  0 < NBits /\ 0 <= NSourceOffset /\ 0 <= NDestinationOffset < 2 ^ 64 /\
  NBits + NSourceOffset <= bits TSource /\ NBits + NSourceOffset <= 32 /\
  usize (NBits + NDestinationOffset) <= bits TDestination.
Proof.
  unfold extract_bits. intros E.
  destruct (size_t_arg NBits) as [n|] eqn:En; [|discriminate].
  destruct (size_t_arg NSourceOffset) as [so|] eqn:Eso; [|discriminate].
  destruct (size_t_arg NDestinationOffset) as [do|] eqn:Edo; [|discriminate].
  apply size_t_arg_inv in En as [-> Hn], Eso as [-> Hso], Edo as [-> Hdo].
  cbn [bind] in E.
  destruct (guard _) eqn:G in E; [|discriminate]. cbn [bind] in E.
  destruct (bit_mask (underlying TSource) NSourceOffset NBits) as [m|] eqn:Em;
    [|discriminate].
  apply guard_inv in G. apply andb_prop in G as [G G3]. apply andb_prop in G as [G1 G2].
  apply Z.leb_le in G2, G3. apply Z.ltb_lt in G1.
  pose proof (bit_mask_args _ _ _ _ Em) as [Hs32 Hc32].
  pose proof (bits_range TSource).
  rewrite usize_small in G2 by lia.
  apply bit_mask_inv in Em as (_ & _ & _ & _ & H32 & _); [|lia].
  repeat split; auto; lia.
Qed.

(** Reading an accepted [set_helper] backwards. *)
Lemma set_helper_inv (f : bit_field) (TConfig : bit_field_config)
    (TStorage TValue : scalar) (skip_mask : bool) (into value into' : Z) :
  set_helper f TConfig TStorage TValue skip_mask into value = Some into' ->
  (is_integral TStorage || is_byte TStorage) = true /\
  0 < NBits f /\ 0 <= NOffset f /\ 0 <= effective_offset f TConfig /\
  NOffset f + NBits f <= bits TStorage /\ NOffset f + NBits f <= 32 /\
  effective_offset f TConfig + NBits f <= bits TValue /\
  effective_offset f TConfig + NBits f <= 32.
Proof.
  unfold set_helper. intros E.
  destruct (bit_mask TStorage (NOffset f) (NBits f)) as [m|] eqn:Em; [|discriminate].
  cbn [bind] in E.
  destruct (extract_bits _ _ _ _ _ _ _) as [moved|] eqn:Ex; [|discriminate].
  apply extract_bits_inv in Ex as (Hn & Heo & Hoff & Hvw & Hv32 & Hd).
  pose proof (bit_mask_args _ _ _ _ Em) as [Hs32 Hc32].
  pose proof (bits_range TStorage).
  rewrite usize_small in Hd by lia.
  apply bit_mask_inv in Em as (HT & _ & _ & _ & H32 & _); [|lia].
  repeat split; auto; lia.
Qed.


Lemma best_viable_In (c : counter_state) (max_value M : Z) :
  best_viable c max_value = Some M -> In M c.
Proof.
  revert M. induction c as [|N rest IH]; intros M; cbn [best_viable].
  - discriminate.
  - destruct (N <=? max_value).
    + destruct (best_viable rest max_value) as [M'|].
      * intros [= <-]. destruct (Z.max_spec N M') as [[_ ->]|[_ ->]].
        -- right. apply IH. reflexivity.
        -- left. reflexivity.
      * intros [= <-]. left. reflexivity.
    + intros H. right. apply IH. exact H.
Qed.

Lemma instantiates_spec (N : Z) :
  instantiates N = true <-> 0 <= N <= template_depth.
Proof. unfold instantiates. lia. Qed.

Lemma counter_at_instantiates (c : counter_state) (v : Z) :
  counter_at c v -> 0 <= v <= template_depth -> forallb instantiates c = true.
Proof.
  intros (rest & -> & Hrest) Hv. apply forallb_forall. intros N [<-|HN].
  - apply instantiates_spec. exact Hv.
  - rewrite Forall_forall in Hrest. specialize (Hrest N HN).
    apply instantiates_spec. lia.
Qed.

Lemma COUNTER_VALUE_at (c : counter_state) (v max_value : Z) :
  counter_at c v -> 0 <= v <= max_value -> max_value <= template_depth ->
  COUNTER_VALUE c max_value = Some v.
Proof.
  intros Hc Hv Hmax. unfold COUNTER_VALUE.
  rewrite guard_true.
  2:{ apply andb_true_intro. split; [apply instantiates_spec; lia|].
      apply (counter_at_instantiates c v); [exact Hc|lia]. }
  destruct Hc as (rest & -> & Hrest). cbn [bind best_viable].
  destruct (Z.leb_spec v max_value); [|lia].
  destruct (best_viable rest max_value) as [M|] eqn:E; [|reflexivity].
  apply best_viable_In in E. rewrite Forall_forall in Hrest.
  specialize (Hrest M E). f_equal. lia.
Qed.

Lemma counter_at_fresh (c : counter_state) (v N : Z) :
  counter_at c v -> v < N -> existsb (Z.eqb N) c = false.
Proof.
  intros (rest & -> & Hrest) HN.
  destruct (existsb _ _) eqn:E; [|reflexivity].
  apply existsb_exists in E as (x & Hx & Heq). apply Z.eqb_eq in Heq. subst x.
  destruct Hx as [->|Hx]; [lia|].
  rewrite Forall_forall in Hrest. specialize (Hrest N Hx). lia.
Qed.

Lemma counter_at_cons (c : counter_state) (v N : Z) :
  counter_at c v -> 0 <= v < N -> counter_at (N :: c) N.
Proof.
  intros (rest & -> & Hrest) HN. exists (v :: rest). split; [reflexivity|].
  constructor; [lia|]. eapply Forall_impl; [|exact Hrest]. cbv beta. intros; lia.
Qed.

(** A counter read and added to in the class that declared it. *)
Lemma COUNTER_ADD_at (c : counter_state) (v add_value max_value : Z) :
  counter_at c v -> 0 <= v -> 0 < add_value -> v <= max_value ->
  max_value <= template_depth -> v + add_value < 2 ^ 32 ->
  COUNTER_ADD c c add_value max_value = Some ((v + add_value) :: c) /\
  counter_at ((v + add_value) :: c) (v + add_value).
Proof.
  intros Hc Hv Ha Hmax Hdepth H32. unfold COUNTER_ADD.
  rewrite (COUNTER_VALUE_at c v) by (auto; lia). cbn [bind].
  rewrite u32_small by lia.
  rewrite (counter_at_fresh c v) by (auto; lia). cbn [negb guard bind].
  split; [reflexivity|]. apply (counter_at_cons c v); [exact Hc|lia].
Qed.

(** What [count] finds in a class that has allocated [v] bits. *)
Lemma lookup_count_at (b : bit_field_builder) (v : Z) :
  allocated b v -> counter_at (lookup_count b) v.
Proof.
  unfold lookup_count. intros [[-> ->]|Hc].
  - exists []. split; [reflexivity|constructor].
  - destruct Hc as (rest & E & Hrest). rewrite E. exists rest. auto.
Qed.

Lemma max_field_depth (b : bit_field_builder) : 8 <= max_field b <= template_depth.
Proof.
  unfold max_field, template_depth. pose proof (bits_range (value_type b)). lia.
Qed.

Lemma declare_pad_at (b : bit_field_builder) (n v : Z) :
  allocated b v -> 0 <= v -> 0 < n -> v <= max_field b -> v + n < 2 ^ 32 ->
  exists b', declare_pad b n = Some b' /\
    value_type b' = value_type b /\ default_config b' = default_config b /\
    allocated b' (v + n) /\ fields b' = fields b.
Proof.
  intros Hc Hv Hn Hmax H32. pose proof (max_field_depth b) as Hd.
  unfold declare_pad, COUNTER_ADD.
  rewrite (COUNTER_VALUE_at (lookup_count b) v)
    by (auto using lookup_count_at; lia).
  cbn [bind]. rewrite u32_small by lia.
  assert (E : existsb (Z.eqb (v + n)) (count b) = false).
  { destruct Hc as [[-> _]|Hc]; [reflexivity|].
    apply (counter_at_fresh _ v); [exact Hc|lia]. }
  rewrite E. cbn [negb guard bind].
  eexists. split; [reflexivity|]. cbn [value_type default_config fields count].
  repeat split. right. cbn [count].
  destruct Hc as [[-> ->]|Hc].
  - exists []. split; [reflexivity|constructor].
  - apply (counter_at_cons _ v); [exact Hc|lia].
Qed.

Lemma declare_at (b : bit_field_builder) (d : declaration) (v : Z) :
  allocated b v -> 0 <= v -> 0 < num_bits_of d ->
  v + num_bits_of d <= max_field b ->
  exists b', declare b d = Some b' /\
    value_type b' = value_type b /\ default_config b' = default_config b /\
    allocated b' (v + num_bits_of d) /\
    fields b' = fields b ++ laid_out (default_config b) v [d].
Proof.
  intros Hc Hv Hn Hmax. pose proof (max_field_depth b) as Hd.
  assert (Hw : max_field b <= 64)
    by (unfold max_field; pose proof (bits_range (value_type b)); lia).
  destruct (declare_pad_at b (num_bits_of d) v)
    as (b1 & Hpad & Hty1 & Hcfg1 & Hat1 & Hf1); auto; try lia.
  destruct d as [n c|n]; cbn [declare num_bits_of laid_out] in *.
  - unfold declare_field.
    rewrite (COUNTER_VALUE_at (lookup_count b) v)
      by (auto using lookup_count_at; lia).
    cbn [bind]. rewrite u32_small by lia.
    rewrite guard_true by (apply Z.leb_le; lia). cbn [bind].
    rewrite size_t_arg_small by lia. cbn [bind].
    rewrite Hpad. cbn [bind].
    eexists. split; [reflexivity|]. cbn [value_type default_config count fields].
    rewrite Hf1, Hcfg1. repeat split; auto.
  - exists b1. rewrite app_nil_r. auto.
Qed.

Lemma laid_out_app (TDefault : bit_field_config) (ds1 ds2 : list declaration) :
  forall start,
    laid_out TDefault start (ds1 ++ ds2)
    = laid_out TDefault start ds1 ++ laid_out TDefault (start + total_bits ds1) ds2.
Proof.
  induction ds1 as [|d ds1 IH]; intros start.
  - cbn. rewrite Z.add_0_r. reflexivity.
  - destruct d as [n c|n]; cbn [app laid_out]; rewrite IH;
      unfold total_bits; cbn [map fold_right num_bits_of];
      rewrite Z.add_assoc; reflexivity.
Qed.

Lemma laid_out_length (TDefault : bit_field_config) (ds : list declaration) :
  forall start, length (laid_out TDefault start ds) = field_count ds.
Proof.
  unfold field_count.
  induction ds as [|[n c|n] ds IH]; intros start; cbn [laid_out filter is_field length];
    auto.
Qed.

Lemma total_bits_app (ds1 ds2 : list declaration) :
  total_bits (ds1 ++ ds2) = total_bits ds1 + total_bits ds2.
Proof.
  unfold total_bits. induction ds1 as [|d ds1 IH]; cbn [app map fold_right]; lia.
Qed.

Lemma total_bits_nonneg (ds : list declaration) :
  Forall (fun d => 0 < num_bits_of d) ds -> 0 <= total_bits ds.
Proof.
  unfold total_bits. induction 1; cbn [map fold_right]; lia.
Qed.

Lemma declare_all_at (ds : list declaration) :
  forall b v,
    allocated b v -> 0 <= v ->
    Forall (fun d => 0 < num_bits_of d) ds ->
    v + total_bits ds <= max_field b ->
    exists b', declare_all b ds = Some b' /\
      value_type b' = value_type b /\ default_config b' = default_config b /\
      allocated b' (v + total_bits ds) /\
      fields b' = fields b ++ laid_out (default_config b) v ds.
Proof.
  induction ds as [|d ds IH]; intros b v Hc Hv Hpos Hmax.
  - exists b. cbn. rewrite Z.add_0_r, app_nil_r. auto.
  - inversion Hpos as [|d' ds' Hd Hds]; subst.
    pose proof (total_bits_nonneg ds Hds) as Hnn.
    unfold total_bits in Hmax, Hnn |- *. cbn [map fold_right] in Hmax |- *.
    destruct (declare_at b d v) as (b1 & E1 & Hty1 & Hcfg1 & Hc1 & Hf1); auto; try lia.
    destruct (IH b1 (v + num_bits_of d)) as (b' & E & Hty & Hcfg & Hc' & Hf); auto;
      try lia.
    { unfold max_field. rewrite Hty1. fold (max_field b). unfold total_bits. lia. }
    exists b'. cbn [declare_all]. rewrite E1. cbn [bind].
    repeat split; try congruence.
    + unfold total_bits in Hc'. rewrite Z.add_assoc. exact Hc'.
    + rewrite Hf, Hf1, Hcfg1, <- app_assoc. f_equal.
      change (d :: ds) with ([d] ++ ds). rewrite laid_out_app.
      unfold total_bits. cbn [map fold_right]. rewrite Z.add_0_r. reflexivity.
Qed.

(** C2: in a class whose declarations ask for positive bit counts that sum to
    at most the width of the storage type, every field gets as its offset the
    sum of the bit counts of all earlier declarations, padding included, and
    [is_complete()] is true exactly when the bit counts sum to the width. *)
Theorem layout_offsets_are_prefix_sums (T : scalar) (TDefault : bit_field_config)
    (ds : list declaration) :
  (is_integral T || is_byte T) = true ->
  Forall (fun d => 0 < num_bits_of d) ds ->
  total_bits ds <= bits T ->
  exists b,
    define_class T TDefault ds = Some b /\
    (forall pre n c post,
        ds = pre ++ BIT_FIELD n c :: post ->
        nth_error (fields b) (field_count pre)
        = Some {| NBits := n; NOffset := total_bits pre;
                  TDefaultConfig := make_config TDefault c |}) /\
    is_complete b = Some (total_bits ds =? bits T).
Proof.
  intros HT Hpos Htot. unfold define_class, bit_field_builder_init.
  rewrite HT. cbn [guard bind].
  destruct (declare_all_at ds
              {| value_type := T; default_config := TDefault;
                 count := []; fields := [] |} 0)
    as (b & E & Hty & Hcfg & Hc & Hf); auto; try lia.
  { left. split; reflexivity. }
  exists b. split; [exact E|]. cbn [fields default_config value_type app] in *.
  rewrite Z.add_0_l in Hc. pose proof (total_bits_nonneg ds Hpos). split.
  - intros pre n c post ->. rewrite Hf, laid_out_app.
    rewrite nth_error_app2 by (rewrite laid_out_length; lia).
    rewrite laid_out_length, Nat.sub_diag. reflexivity.
  - pose proof (max_field_depth b) as Hd. unfold is_complete.
    rewrite (COUNTER_VALUE_at (lookup_count b) (total_bits ds))
      by (auto using lookup_count_at; unfold max_field in *; rewrite Hty in *; lia).
    unfold max_field. rewrite Hty. reflexivity.
Qed.

Lemma layout_offsets_are_prefix_sums_witness :
  (is_integral uint32_t || is_byte uint32_t) = true /\
  Forall (fun d => 0 < num_bits_of d) my_bit_field_declarations /\
  total_bits my_bit_field_declarations <= bits uint32_t /\
  exists b,
    define_class uint32_t bit_field_config_default my_bit_field_declarations = Some b /\
    (forall pre n c post,
        my_bit_field_declarations = pre ++ BIT_FIELD n c :: post ->
        nth_error (fields b) (field_count pre)
        = Some {| NBits := n; NOffset := total_bits pre;
                  TDefaultConfig := make_config bit_field_config_default c |}) /\
    is_complete b = Some (total_bits my_bit_field_declarations =? bits uint32_t).
Proof.
  assert (H1 : (is_integral uint32_t || is_byte uint32_t) = true) by reflexivity.
  assert (H2 : Forall (fun d => 0 < num_bits_of d) my_bit_field_declarations)
    by (repeat constructor).
  assert (H3 : total_bits my_bit_field_declarations <= bits uint32_t)
    by (vm_compute; discriminate).
  repeat split; try assumption.
  exact (layout_offsets_are_prefix_sums uint32_t bit_field_config_default
           my_bit_field_declarations H1 H2 H3).
Defined.


(** C6: the offset of a call is resolved through three layers, the
    configuration of the call first, then the field's default, then 0; at
    either of the first two, [no_shift] gives the field's own offset and
    [no_override] defers to the layer below.  The two sentinels are different
    settings, so a call that says [no_shift] gets the field's own offset
    whatever the field's default is; and [make_config], which builds a field's
    default from the class default, takes [no_shift] for a setting too. *)
Theorem effective_offset_three_layers :
  (forall f TConfig,
      effective_offset f TConfig
      = resolve_offset (NOffset f) (offset_setting_of (offset TConfig))
          (resolve_offset (NOffset f) (offset_setting_of (offset (TDefaultConfig f))) 0))
  /\ offset_setting_of no_override = unspecified
  /\ offset_setting_of no_shift = keep_source_position
  /\ (forall n own d t s,
         effective_offset {| NBits := n; NOffset := own; TDefaultConfig := d |}
           {| type := t; offset := no_shift; strategy := s |} = own)
  /\ (forall d given,
         offset (make_config d (Some given))
         = match offset_setting_of (offset given) with
           | unspecified => offset d
           | _ => offset given
           end).
Proof.
  repeat split.
  - intros f TConfig. unfold effective_offset, offset_setting_of, resolve_offset.
    destruct (offset TConfig =? no_override); [|destruct (offset TConfig =? no_shift)];
      try reflexivity.
    destruct (offset (TDefaultConfig f) =? no_override);
      [|destruct (offset (TDefaultConfig f) =? no_shift)]; reflexivity.
  - intros d given. unfold make_config, offset_setting_of. cbn [offset].
    destruct (offset given =? no_override); cbn [negb]; [reflexivity|].
    destruct (offset given =? no_shift); reflexivity.
Qed.

(** C8: the worked 32-bit example.  The class is accepted and complete, with
    fields of 5, 2 and 3 bits at bits 0, 5 and 29; the first and the third
    are read as values of the storage type at offset 0, the second as a
    [std::byte] at its own offset, 5; the word 11100000 00000000 00000000
    01111111 reads as 31, the byte 01100000 and 7; writing these three values
    into a zero word gives that word back. *)
Theorem worked_example_32_bit :
  (b <- my_bit_field ;; Some (map NOffset (fields b))) = Some [0; 5; 29] /\
  (b <- my_bit_field ;; Some (map NBits (fields b))) = Some [5; 2; 3] /\
  (b <- my_bit_field ;;
   Some (map (fun f => effective_storage f bit_field_config_default (value_type b))
           (fields b))) = Some [uint32_t; Byte; uint32_t] /\
  (b <- my_bit_field ;;
   Some (map (fun f => effective_offset f bit_field_config_default) (fields b)))
  = Some [0; 5; 0] /\
  (b <- my_bit_field ;; is_complete b) = Some true /\
  (b <- my_bit_field ;; get_field b 0 bit_field_config_default 3758096511) = Some 31 /\
  (b <- my_bit_field ;; get_field b 1 bit_field_config_default 3758096511) = Some 96 /\
  (b <- my_bit_field ;; get_field b 2 bit_field_config_default 3758096511) = Some 7 /\
  (b <- my_bit_field ;;
   r1 <- set_field b 0 bit_field_config_default int_t 0 31 ;;
   r2 <- set_field b 1 bit_field_config_default Byte (fst r1) 96 ;;
   r3 <- set_field b 2 bit_field_config_default int_t (fst r2) 7 ;;
   Some (fst r3, [snd r1; snd r2; snd r3]))
  = Some (3758096511, [returns_void; returns_void; returns_void]).
Proof. repeat split. Qed.

(** * The same properties on types of at most 32 bits *)

Lemma mask_bit_low (s c k : Z) : k < 32 -> mask_bit s c k = in_span s c k.
Proof. intros Hk. unfold mask_bit, in_span. lia. Qed.

(** [bit_mask] is exact on a type of at most 32 bits. *)
Lemma bit_mask_exact (T : scalar) (NStart NCount : Z) :
  bits T <= 32 -> (is_integral T || is_byte T) = true ->
  0 <= NStart -> 0 < NCount -> NStart + NCount <= bits T ->
  exists m, bit_mask T NStart NCount = Some m /\ in_range T m /\
    forall k, 0 <= k < bits T -> Z.testbit m k = in_span NStart NCount k.
Proof.
  intros H32 HT Hs Hc Hw.
  destruct (bit_mask_defined T NStart NCount) as (m & Hm & Hr & Hb); auto; try lia.
  exists m. repeat split; auto.
  intros k Hk. rewrite Hb, mask_bit_low by lia. reflexivity.
Qed.

(** On such a type it is rejected exactly outside the domain of its
    [requires] clause. *)
Lemma bit_mask_rejected_iff (T : scalar) (NStart NCount : Z) :
  bits T <= 32 -> (is_integral T || is_byte T) = true ->
  0 <= NStart -> 0 <= NCount -> NStart + NCount < 2 ^ 32 ->
  bit_mask T NStart NCount = None <-> NCount = 0 \/ bits T < NStart + NCount.
Proof.
  intros H32 HT Hs Hc Hsum. split.
  - intros Hnone.
    destruct (Z.eq_dec NCount 0) as [|Hc0]; [left; assumption|].
    destruct (Z_lt_le_dec (bits T) (NStart + NCount)) as [|Hle]; [right; assumption|].
    destruct (bit_mask_exact T NStart NCount) as (m & Hm & _); auto; try lia.
    congruence.
  - intros Hrej. destruct (bit_mask T NStart NCount) as [m|] eqn:E; [|reflexivity].
    apply bit_mask_inv in E; [|lia]. lia.
Qed.

(** The masked source of [extract_bits], bit by bit. *)
Lemma source_bits_testbit (T : scalar) (start count source m j : Z) :
  0 <= start -> 0 < count -> start + count <= bits T ->
  is_signed T = false \/ start + count < bits T ->
  (forall k, 0 <= k < bits T -> Z.testbit m k = in_span start count k) ->
  0 <= j ->
  Z.testbit (static_cast T (and_ T (static_cast T source) m)) j
  = in_span start count j && Z.testbit source j.
Proof.
  intros Hs Hc Hw Hsg Hm Hj.
  pose proof (bits_range T). pose proof (bits_result_type T).
  assert (Hlow : forall i, 0 <= i < bits T ->
            Z.testbit (and_ T (static_cast T source) m) i
            = in_span start count i && Z.testbit source i).
  { intros i Hi. unfold and_. rewrite static_cast_testbit by lia.
    destruct (Z.ltb_spec i (bits (result_type T))); [|lia].
    rewrite Z.land_spec, static_cast_testbit, Hm by lia.
    destruct (Z.ltb_spec i (bits T)); [|lia]. apply andb_comm. }
  rewrite static_cast_testbit by lia.
  destruct (Z.ltb_spec j (bits T)).
  - apply Hlow; lia.
  - rewrite Hlow by lia.
    replace (in_span start count j) with false by (unfold in_span; lia).
    destruct Hsg as [->|Hlt]; [reflexivity|].
    replace (in_span start count (bits T - 1)) with false by (unfold in_span; lia).
    rewrite andb_false_r. reflexivity.
Qed.

(** [extract_bits] relocates exactly the span when the source type has at
    most 32 bits and the span stays clear of the sign bit of a signed source. *)
Lemma extract_bits_exact (NBits NSourceOffset : Z) (TSource TDestination : scalar)
    (NDestinationOffset source : Z) :
  bits TSource <= 32 ->
  is_signed TSource = false \/ NSourceOffset + NBits < bits TSource ->
  0 < NBits -> 0 <= NSourceOffset -> 0 <= NDestinationOffset ->
  NBits + NSourceOffset <= bits TSource ->
  NBits + NDestinationOffset <= bits TDestination ->
  exists r,
    extract_bits NBits NSourceOffset TSource TDestination NDestinationOffset
      false source = Some r /\
    in_range TDestination r /\
    forall k, 0 <= k < bits TDestination ->
      Z.testbit r k
      = in_span NDestinationOffset NBits k
        && Z.testbit source (k - NDestinationOffset + NSourceOffset).
Proof.
  intros H32 Hsg Hn Hso Hdo Hs Hd.
  pose proof (bits_range TSource). pose proof (bits_range TDestination).
  destruct (extract_bits_unfold NBits NSourceOffset TSource TDestination
              NDestinationOffset false source) as (m & _ & _ & Hb & E); auto; try lia.
  cbv zeta in E. rewrite E. eexists. split; [reflexivity|].
  split; [apply static_cast_in_range|].
  assert (Hsb : forall j, 0 <= j ->
            Z.testbit (static_cast (underlying TSource)
                         (and_ (underlying TSource)
                            (static_cast (underlying TSource) source) m)) j
            = in_span NSourceOffset NBits j && Z.testbit source j).
  { intros j Hj. apply source_bits_testbit; rewrite ?bits_underlying,
      ?is_signed_underlying; auto; try lia.
    intros k Hk. rewrite Hb, mask_bit_low by lia. reflexivity. }
  set (sb := static_cast (underlying TSource) _) in *.
  pose proof (bits_result_type (underlying TSource)) as HRS.
  pose proof (bits_result_type (underlying TDestination)) as HRD.
  pose proof (bits_promote (underlying TDestination)) as HPD.
  rewrite !bits_underlying in *.
  intros k Hk. rewrite static_cast_testbit by lia.
  destruct (Z.ltb_spec k (bits TDestination)); [|lia].
  destruct (Z.eqb_spec (NSourceOffset - NDestinationOffset) 0) as [E0|E0].
  - rewrite static_cast_testbit, bits_underlying by lia.
    destruct (Z.ltb_spec k (bits TDestination)); [|lia].
    rewrite Hsb by lia.
    replace (k - NDestinationOffset + NSourceOffset) with k by lia.
    f_equal. unfold in_span. lia.
  - destruct (Z.ltb_spec 0 (NSourceOffset - NDestinationOffset)).
    + rewrite static_cast_testbit, bits_underlying by lia.
      destruct (Z.ltb_spec k (bits TDestination)); [|lia].
      rewrite static_cast_testbit by lia.
      destruct (Z.ltb_spec k (bits (result_type (underlying TSource)))).
      * rewrite Z.shiftr_spec, Hsb by lia.
        replace (k + (NSourceOffset - NDestinationOffset))
          with (k - NDestinationOffset + NSourceOffset) by lia.
        f_equal. unfold in_span. lia.
      * rewrite Z.shiftr_spec, Hsb by lia.
        replace (in_span NSourceOffset NBits _) with false by (unfold in_span; lia).
        replace (in_span NDestinationOffset NBits k) with false by (unfold in_span; lia).
        rewrite andb_false_r. reflexivity.
    + rewrite !static_cast_testbit by lia.
      destruct (Z.ltb_spec k (bits (result_type (underlying TDestination)))); [|lia].
      destruct (Z.ltb_spec k (bits (promote (underlying TDestination)))); [|lia].
      rewrite Z.shiftl_spec by lia.
      replace (k - - (NSourceOffset - NDestinationOffset))
        with (k - NDestinationOffset + NSourceOffset) by lia.
      destruct (Z_lt_le_dec (k - NDestinationOffset + NSourceOffset) 0).
      * rewrite !Z.testbit_neg_r by lia.
        rewrite andb_false_r. reflexivity.
      * rewrite static_cast_testbit, bits_underlying by lia.
        destruct (Z.ltb_spec (k - NDestinationOffset + NSourceOffset) (bits TDestination));
          [|lia].
        rewrite Hsb by lia. f_equal. unfold in_span. lia.
Qed.

(** [get] reads nothing but the field's span of a word of at most 32 bits. *)
Lemma get_depends_on_span_only (f : bit_field) (TConfig : bit_field_config)
    (TStorage : scalar) (a b : Z) :
  bits TStorage <= 32 ->
  agree_on_span TStorage (NOffset f) (NBits f) a b ->
  get f TConfig TStorage a = get f TConfig TStorage b.
Proof.
  intros H32 Hab. unfold get.
  destruct (guard _); [cbn [bind]|reflexivity].
  unfold extract_bits.
  destruct (size_t_arg (NBits f)) as [n|] eqn:En; [|reflexivity].
  destruct (size_t_arg (NOffset f)) as [so|] eqn:Eso; [|reflexivity].
  destruct (size_t_arg (effective_offset f TConfig)) as [do|] eqn:Edo; [|reflexivity].
  apply size_t_arg_inv in En as [-> Hn], Eso as [-> Hso], Edo as [-> Hdo].
  cbn [bind].
  destruct (guard _) eqn:G; [|reflexivity]. cbn [bind].
  destruct (bit_mask (underlying TStorage) (NOffset f) (NBits f)) as [m|] eqn:Em;
    [|reflexivity].
  cbn [bind negb].
  pose proof (bit_mask_args _ _ _ _ Em) as [Hs32 Hc32].
  pose proof (bits_range TStorage).
  apply guard_inv in G. apply andb_prop in G as [G _]. apply andb_prop in G as [_ G].
  apply Z.leb_le in G. rewrite usize_small in G by lia.
  apply bit_mask_inv in Em as (_ & _ & _ & Hw & _ & _ & Hb); [|lia].
  rewrite bits_underlying in *.
  pose proof (bits_result_type (underlying TStorage)) as HR.
  rewrite bits_underlying in HR.
  replace (static_cast (underlying TStorage)
             (and_ (underlying TStorage) (static_cast (underlying TStorage) a) m))
    with (static_cast (underlying TStorage)
            (and_ (underlying TStorage) (static_cast (underlying TStorage) b) m));
    [reflexivity|].
  apply static_cast_ext. rewrite bits_underlying. intros k Hk. unfold and_.
  rewrite !static_cast_testbit by lia.
  destruct (Z.ltb_spec k (bits (result_type (underlying TStorage)))); [|lia].
  rewrite !Z.land_spec, !static_cast_testbit, bits_underlying by lia.
  destruct (Z.ltb_spec k (bits TStorage)); [|lia].
  rewrite Hb, mask_bit_low by lia.
  destruct (in_span (NOffset f) (NBits f) k) eqn:Ei.
  - rewrite (Hab k) by (unfold in_span in Ei; lia). reflexivity.
  - rewrite !andb_false_r. reflexivity.
Qed.

(** What [set_helper] with the mask writes, bit by bit: the value's span
    inside the field, the old word outside. *)
Lemma set_helper_writes_field (f : bit_field) (TConfig : bit_field_config)
    (TStorage TValue : scalar) (into value : Z) :
  bits TStorage <= 32 -> bits TValue <= 32 ->
  (is_integral TStorage || is_byte TStorage) = true ->
  is_signed TValue = false \/ effective_offset f TConfig + NBits f < bits TValue ->
  0 < NBits f -> 0 <= NOffset f -> 0 <= effective_offset f TConfig ->
  NOffset f + NBits f <= bits TStorage ->
  effective_offset f TConfig + NBits f <= bits TValue ->
  exists into',
    set_helper f TConfig TStorage TValue false into value = Some into' /\
    in_range TStorage into' /\
    forall k, 0 <= k < bits TStorage ->
      Z.testbit into' k
      = if in_span (NOffset f) (NBits f) k
        then Z.testbit value (k - NOffset f + effective_offset f TConfig)
        else Z.testbit into k.
Proof.
  intros HS32 HV32 HT Hsg Hn Ho He Hw Hvw.
  pose proof (bits_range TStorage). pose proof (bits_result_type TStorage).
  pose proof (bits_promote TStorage).
  destruct (bit_mask_exact TStorage (NOffset f) (NBits f)) as (m & Hm & _ & Hb); auto.
  destruct (extract_bits_exact (NBits f) (effective_offset f TConfig) TValue TStorage
              (NOffset f) value) as (moved & Hx & _ & Hxb); auto; try lia.
  unfold set_helper. rewrite Hm, Hx. cbn [bind].
  eexists. split; [reflexivity|]. split; [apply static_cast_in_range|].
  intros k Hk. unfold or_, and_, not_.
  rewrite !static_cast_testbit by lia.
  destruct (Z.ltb_spec k (bits TStorage)); [|lia].
  destruct (Z.ltb_spec k (bits (result_type TStorage))); [|lia].
  rewrite Z.lor_spec, !static_cast_testbit by lia.
  destruct (Z.ltb_spec k (bits TStorage)); [|lia].
  destruct (Z.ltb_spec k (bits (result_type TStorage))); [|lia].
  rewrite Z.land_spec, !static_cast_testbit by lia.
  destruct (Z.ltb_spec k (bits (result_type TStorage))); [|lia].
  destruct (Z.ltb_spec k (bits (promote TStorage))); [|lia].
  rewrite Z.lnot_spec, Hb, Hxb by lia.
  destruct (in_span (NOffset f) (NBits f) k); cbn [negb andb orb].
  - rewrite andb_false_r. reflexivity.
  - rewrite andb_true_r, orb_false_r. reflexivity.
Qed.

(** A [set] under the [mask] strategy changes no bit outside the field's
    span, on types of at most 32 bits. *)
Lemma mask_set_frame (f : bit_field) (TConfig : bit_field_config)
    (TStorage TValue : scalar) (into value : Z) :
  bits TStorage <= 32 -> bits TValue <= 32 ->
  (is_integral TStorage || is_byte TStorage) = true ->
  is_signed TValue = false \/ effective_offset f TConfig + NBits f < bits TValue ->
  type TConfig = None ->
  0 < NBits f -> 0 <= NOffset f -> 0 <= effective_offset f TConfig ->
  NOffset f + NBits f <= bits TStorage ->
  effective_offset f TConfig + NBits f <= bits TValue ->
  exists into',
    set f (with_strategy TConfig bit_field_assignment_strategy.mask)
      TStorage TValue into value = Some (into', returns_void) /\
    forall k, 0 <= k < bits TStorage -> in_span (NOffset f) (NBits f) k = false ->
      Z.testbit into' k = Z.testbit into k.
Proof.
  intros HS32 HV32 HT Hsg Hty Hn Ho He Hw Hvw.
  destruct (set_helper_writes_field f TConfig TStorage TValue into value)
    as (into' & Hh & _ & Hb); auto.
  exists into'. rewrite set_with_strategy by exact Hty. rewrite Hh. cbn [bind].
  split; [reflexivity|].
  intros k Hk Hout. rewrite Hb, Hout by lia. reflexivity.
Qed.

(** Round trip under the [mask] strategy, on types of at most 32 bits: [get]
    after [set] returns the value's span at the merged offset and nothing
    else. *)
Lemma mask_set_get_round_trip (f : bit_field) (TConfig : bit_field_config)
    (TStorage TValue : scalar) (into value : Z) :
  bits TStorage <= 32 -> bits TValue <= 32 ->
  (is_integral TStorage || is_byte TStorage) = true ->
  is_signed TStorage = false \/ NOffset f + NBits f < bits TStorage ->
  is_signed TValue = false \/ effective_offset f TConfig + NBits f < bits TValue ->
  type TConfig = None ->
  strategy TConfig = bit_field_assignment_strategy.no_override ->
  effective_strategy f TConfig = bit_field_assignment_strategy.mask ->
  0 < NBits f -> 0 <= NOffset f -> 0 <= effective_offset f TConfig ->
  NOffset f + NBits f <= bits TStorage ->
  effective_offset f TConfig + NBits f <= bits TValue ->
  effective_offset f TConfig + NBits f <= bits (effective_storage f TConfig TStorage) ->
  exists into' r,
    set f TConfig TStorage TValue into value = Some (into', returns_void) /\
    get f TConfig TStorage into' = Some r /\
    in_range (effective_storage f TConfig TStorage) r /\
    forall k, 0 <= k < bits (effective_storage f TConfig TStorage) ->
      Z.testbit r k
      = in_span (effective_offset f TConfig) (NBits f) k && Z.testbit value k.
Proof.
  intros HS32 HV32 HT HsgS HsgV Hty Hst Heff Hn Ho He Hw Hvw Hrw.
  destruct (set_helper_writes_field f TConfig TStorage TValue into value)
    as (into' & Hh & _ & Hb); auto.
  destruct (extract_bits_exact (NBits f) (NOffset f) TStorage
              (effective_storage f TConfig TStorage) (effective_offset f TConfig) into')
    as (r & Hx & Hr & Hxb); auto; try lia.
  exists into', r. repeat split; auto.
  - unfold set, set_impl. rewrite Hty, Heff. cbn [guard bind]. rewrite Hh. reflexivity.
  - unfold get. rewrite Hst. cbn [bit_field_assignment_strategy.eqb guard bind].
    exact Hx.
  - intros k Hk. rewrite Hxb by lia.
    destruct (in_span (effective_offset f TConfig) (NBits f) k) eqn:Ei;
      [|reflexivity].
    cbn [andb]. unfold in_span in Ei. rewrite Hb by lia.
    replace (in_span (NOffset f) (NBits f) (k - effective_offset f TConfig + NOffset f))
      with true by (unfold in_span; lia).
    f_equal. lia.
Qed.

(** The test of the checked strategies finds exactly the values with a bit
    outside the span, on a value type of at most 32 bits. *)
Lemma has_invalid_bits_exact (f : bit_field) (TConfig : bit_field_config)
    (TValue : scalar) (value : Z) :
  bits TValue <= 32 ->
  0 < NBits f -> 0 <= effective_offset f TConfig ->
  effective_offset f TConfig + NBits f <= bits TValue ->
  has_invalid_bits f TConfig TValue value
  = Some (negb (within_spanb TValue (effective_offset f TConfig) (NBits f) value)).
Proof.
  intros H32 Hn Ho Hw.
  destruct (within_spanb TValue _ _ value) eqn:E.
  - apply within_spanb_spec in E.
    apply has_invalid_bits_within_span; auto; lia.
  - pose proof (bits_range TValue). pose proof (bits_result_type (underlying TValue)) as HR.
    pose proof (bits_promote (underlying TValue)) as HP.
    unfold has_invalid_bits.
    destruct (bit_mask_exact (underlying TValue) (effective_offset f TConfig) (NBits f))
      as (m & Hm & _ & Hb);
      rewrite ?bits_underlying in *; auto using underlying_kind.
    rewrite Hm. cbn [bind negb]. f_equal.
    destruct (Z.eqb_spec (and_ (underlying TValue) (static_cast (underlying TValue) value)
                            (static_cast (underlying TValue)
                               (not_ (underlying TValue) m))) 0) as [Ez|]; [|reflexivity].
    exfalso. assert (Hs : within_span TValue (effective_offset f TConfig) (NBits f) value).
    { intros k Hk Hbit.
      assert (Hk0 : Z.testbit (and_ (underlying TValue)
                                 (static_cast (underlying TValue) value)
                                 (static_cast (underlying TValue)
                                    (not_ (underlying TValue) m))) k = false)
        by (rewrite Ez; apply Z.bits_0).
      unfold and_, not_ in Hk0.
      rewrite static_cast_testbit in Hk0 by lia.
      destruct (Z.ltb_spec k (bits (result_type (underlying TValue)))); [|lia].
      rewrite Z.land_spec, !static_cast_testbit, bits_underlying in Hk0 by lia.
      destruct (Z.ltb_spec k (bits TValue)); [|lia].
      destruct (Z.ltb_spec k (bits (result_type (underlying TValue)))); [|lia].
      destruct (Z.ltb_spec k (bits (promote (underlying TValue)))); [|lia].
      rewrite Z.lnot_spec, Hb, Hbit in Hk0 by lia.
      unfold in_span in Hk0. lia. }
    apply within_spanb_spec in Hs. congruence.
Qed.

(** The checked strategies on types of at most 32 bits: the call succeeds and
    writes exactly when the value has no bit outside the span; otherwise it
    returns [false], or throws, and leaves the word as it was. *)
Lemma checked_set_exact (f : bit_field) (TConfig : bit_field_config)
    (TStorage TValue : scalar) (into value : Z) :
  bits TStorage <= 32 -> bits TValue <= 32 ->
  (is_integral TStorage || is_byte TStorage) = true ->
  type TConfig = None ->
  0 < NBits f -> 0 <= NOffset f -> 0 <= effective_offset f TConfig ->
  NOffset f + NBits f <= bits TStorage ->
  effective_offset f TConfig + NBits f <= bits TValue ->
  exists into',
    set_helper f TConfig TStorage TValue true into value = Some into' /\
    set f (with_strategy TConfig bit_field_assignment_strategy.return_bool)
      TStorage TValue into value
    = Some (if within_spanb TValue (effective_offset f TConfig) (NBits f) value
            then (into', returns_bool true) else (into, returns_bool false)) /\
    set f (with_strategy TConfig bit_field_assignment_strategy.exception)
      TStorage TValue into value
    = Some (if within_spanb TValue (effective_offset f TConfig) (NBits f) value
            then (into', returns_void) else (into, throws_bit_field_error)).
Proof.
  intros HS32 HV32 HT Hty Hn Ho He Hw Hvw.
  destruct (set_helper_defined f TConfig TStorage TValue true into value)
    as (into' & Hh & _); auto; try lia.
  exists into'. split; [exact Hh|].
  rewrite !set_with_strategy by exact Hty.
  rewrite has_invalid_bits_exact by auto. cbn [bind]. rewrite Hh. cbn [bind].
  destruct (within_spanb TValue _ _ value); split; reflexivity.
Qed.

(** * Where [bit_mask] goes wrong: [1 << i] is computed in [int] *)

(** C5, at [bit_mask<std::uint64_t, 31, 1>] and [bit_mask<std::uint64_t, 32, 1>]:
    both satisfy the [requires] clause; the first is 0xFFFFFFFF80000000, bits
    32 to 63 set besides bit 31, and the second is rejected, [1 << 32] being
    undefined. *)
Theorem bit_mask_uint64_bit_31 :
  bit_mask uint64_t 31 1 = Some 18446744071562067968 /\
  Z.testbit 18446744071562067968 40 = true /\
  bit_mask uint64_t 32 1 = None.
Proof. repeat split. Qed.

(** The sum in the [requires] clause of [bit_mask] is an [unsigned] one:
    [bit_mask<std::uint8_t, 4294967295, 2>] is accepted, the sum wrapping to 1,
    and is 0, the loop running no turn. *)
Remark bit_mask_sum_wraps : bit_mask uint8_t 4294967295 2 = Some 0.
Proof. reflexivity. Qed.

(** The sums in the [requires] clause of [extract_bits] are [std::size_t]
    ones: with the destination offset 2^64 - 3 the sum wraps to 0, the call is
    accepted, and the field is shifted out: the result is 0. *)
Remark extract_bits_sum_wraps :
  extract_bits 3 0 uint8_t uint8_t (2 ^ 64 - 3) false 255 = Some 0.
Proof. reflexivity. Qed.

(** A second way for [extract_bits] to leave bits outside the destination
    span, on a signed source whose span holds the sign bit: [>>] on a negative
    value is an arithmetic shift.  [extract_bits<1, 7, std::int8_t>(-128)] is
    -1, all eight bits set. *)
Remark extract_bits_signed_source :
  extract_bits 1 7 int8_t int8_t 0 false (-128) = Some (-1).
Proof. reflexivity. Qed.

(** C1, at [extract_bits<1, 31, std::uint64_t>(1 << 40)]: bit 31 of the source
    is clear, yet the result is 512, bit 9 set. *)
Theorem extract_bits_uint64_bit_31 :
  extract_bits 1 31 uint64_t uint64_t 0 false (2 ^ 40) = Some 512 /\
  Z.testbit (2 ^ 40) 31 = false /\ Z.testbit 512 9 = true.
Proof. repeat split. Qed.

(** C3, at a one-bit field at bit 31 of a 64-bit word, written unshifted under
    [return_bool] and [exception] with the value [1 << 40]: the value has bit
    40 set, outside the field, yet the call succeeds and writes it. *)
Theorem checked_set_uint64_bit_31 :
  within_spanb uint64_t 31 1 (2 ^ 40) = false /\
  set (bit31 (unshifted bit_field_assignment_strategy.return_bool))
    bit_field_config_default uint64_t uint64_t 0 (2 ^ 40)
  = Some (2 ^ 40, returns_bool true) /\
  set (bit31 (unshifted bit_field_assignment_strategy.exception))
    bit_field_config_default uint64_t uint64_t 0 (2 ^ 40)
  = Some (2 ^ 40, returns_void).
Proof. repeat split. Qed.

(** C4, at a 32-bit field at bit 0 of a 64-bit word, default configuration,
    value [1 << 40]: after [set] under [mask], [get] returns [1 << 40], not the
    value masked to 32 bits, which is 0. *)
Theorem round_trip_uint64_low32 :
  (r <- set low32 bit_field_config_default uint64_t uint64_t 0 (2 ^ 40) ;;
   get low32 bit_field_config_default uint64_t (fst r)) = Some (2 ^ 40) /\
  Z.land (2 ^ 40) (Z.ones 32) = 0.
Proof. repeat split. Qed.

(** C7, at a one-bit field at bit 31 of a 64-bit word holding [1 << 40], set to
    0 under [mask]: the word becomes 0; bit 40, outside the field, is lost. *)
Theorem mask_set_uint64_bit_31 :
  set (bit31 bit_field_config_default)
    (with_strategy bit_field_config_default bit_field_assignment_strategy.mask)
    uint64_t uint8_t (2 ^ 40) 0 = Some (0, returns_void) /\
  Z.testbit (2 ^ 40) 40 = true /\ in_span 31 1 40 = false.
Proof. repeat split. Qed.

(** C10, at a one-bit field at bit 31 of a 64-bit word: 0 and [1 << 40] have
    the same bit 31, and [get] returns 0 for one and 512 for the other. *)
Theorem get_uint64_bit_31 :
  Z.testbit 0 31 = Z.testbit (2 ^ 40) 31 /\
  get (bit31 bit_field_config_default) bit_field_config_default uint64_t 0 = Some 0 /\
  get (bit31 bit_field_config_default) bit_field_config_default uint64_t (2 ^ 40)
  = Some 512.
Proof. repeat split. Qed.

(** * The compile-time counter *)

Lemma best_viable_cons (c : counter_state) (N max_value v : Z) :
  best_viable c max_value = Some v ->
  best_viable (N :: c) max_value
  = Some (if N <=? max_value then Z.max N v else v).
Proof.
  intros E. cbn [best_viable]. rewrite E.
  destruct (N <=? max_value); reflexivity.
Qed.

Lemma best_viable_le (c : counter_state) (max_value v : Z) :
  best_viable c max_value = Some v -> v <= max_value.
Proof.
  revert v. induction c as [|N c IH]; intros v; cbn [best_viable]; [discriminate|].
  destruct (Z.leb_spec N max_value).
  - destruct (best_viable c max_value) as [M|].
    + intros [= <-]. specialize (IH M eq_refl). lia.
    + intros [= <-]. lia.
  - apply IH.
Qed.

Lemma best_viable_head (c : counter_state) (N max_value v : Z) :
  N <= max_value -> best_viable (N :: c) max_value = Some v -> N <= v.
Proof.
  intros HN. cbn [best_viable]. destruct (Z.leb_spec N max_value); [|lia].
  destruct (best_viable c max_value); intros [= <-]; lia.
Qed.

(** Reading an accepted [COUNTER_VALUE] backwards. *)
Lemma COUNTER_VALUE_inv (c : counter_state) (max_value v : Z) :
  COUNTER_VALUE c max_value = Some v ->
  best_viable c max_value = Some v /\ 0 <= max_value <= template_depth /\
  forallb instantiates c = true /\ In v c /\ 0 <= v <= max_value.
Proof.
  unfold COUNTER_VALUE. destruct (guard _) eqn:G; [|discriminate].
  cbn [bind]. intros E. apply guard_inv in G. apply andb_prop in G as [G1 G2].
  apply instantiates_spec in G1.
  pose proof (best_viable_In _ _ _ E) as Hin.
  pose proof (best_viable_le _ _ _ E) as Hle.
  pose proof G2 as Hall. rewrite forallb_forall in Hall. specialize (Hall v Hin).
  apply instantiates_spec in Hall. repeat split; auto; lia.
Qed.

Lemma COUNTER_VALUE_cons (c : counter_state) (N max_value v : Z) :
  COUNTER_VALUE c max_value = Some v -> 0 <= N <= template_depth ->
  COUNTER_VALUE (N :: c) max_value
  = Some (if N <=? max_value then Z.max N v else v).
Proof.
  intros H HN. apply COUNTER_VALUE_inv in H as (E & Hm & Hall & _).
  unfold COUNTER_VALUE. cbn [forallb]. rewrite Hall, andb_true_r.
  rewrite guard_true
    by (apply andb_true_intro; split; apply instantiates_spec; lia).
  cbn [bind]. apply best_viable_cons. exact E.
Qed.

Lemma COUNTER_ADD_inv (name c c' : counter_state) (a max_value : Z) :
  COUNTER_ADD name c a max_value = Some c' ->
  exists v, COUNTER_VALUE name max_value = Some v /\ c' = u32 (v + a) :: c /\
            ~ In (u32 (v + a)) c.
Proof.
  unfold COUNTER_ADD. destruct (COUNTER_VALUE name max_value) as [v|]; [|discriminate].
  cbn [bind]. destruct (existsb _ c) eqn:E; cbn [negb guard bind]; [discriminate|].
  intros [= <-]. exists v. repeat split.
  intros Hin. assert (existsb (Z.eqb (u32 (v + a))) c = true); [|congruence].
  apply existsb_exists. exists (u32 (v + a)). split; [assumption|apply Z.eqb_refl].
Qed.

Lemma sum_of_nonneg (adds : list Z) : Forall (fun a => 0 < a) adds -> 0 <= sum_of adds.
Proof. unfold sum_of. induction 1; cbn [fold_right]; lia. Qed.

Lemma COUNTER_ADD_each_at (adds : list Z) :
  forall c v max_value,
    counter_at c v -> 0 <= v -> Forall (fun a => 0 < a) adds ->
    v + sum_of adds <= max_value -> max_value <= template_depth ->
    exists c', COUNTER_ADD_each c adds max_value = Some c' /\
               counter_at c' (v + sum_of adds).
Proof.
  induction adds as [|a adds IH]; intros c v max_value Hc Hv Hpos Hsum Hmax.
  - exists c. cbn. rewrite Z.add_0_r. auto.
  - inversion Hpos as [|a' adds' Ha Hadds]; subst.
    pose proof (sum_of_nonneg adds Hadds) as Hnn.
    change (sum_of (a :: adds)) with (a + sum_of adds) in *.
    destruct (COUNTER_ADD_at c v a max_value) as [E Hat]; auto;
      try (unfold template_depth in *; lia).
    destruct (IH (v + a :: c) (v + a) max_value) as (c' & E' & Hat'); auto; try lia.
    exists c'. cbn [COUNTER_ADD_each]. rewrite E. cbn [bind].
    rewrite Z.add_assoc. auto.
Qed.

(** X1: a counter named [count], initialised at a value that is not negative
    and then added to with positive amounts in the class that declares it,
    reads as the initial value plus their sum, as long as that sum stays
    within the maximum the counter is read against and this maximum is below
    the instantiation depth of the compiler. *)
Theorem counter_value_is_initial_plus_sum (initial_value : Z) (add_values : list Z)
    (max_value : Z) :
  0 <= initial_value -> Forall (fun a => 0 < a) add_values ->
  initial_value + sum_of add_values <= max_value -> max_value < template_depth ->
  exists c,
    COUNTER_ADD_each (COUNTER_INITIALIZE initial_value) add_values max_value = Some c /\
    COUNTER_VALUE c max_value = Some (initial_value + sum_of add_values).
Proof.
  intros Hv Hpos Hsum Hmax. pose proof (sum_of_nonneg add_values Hpos).
  destruct (COUNTER_ADD_each_at add_values (COUNTER_INITIALIZE initial_value)
              initial_value max_value) as (c & E & Hat); auto; try lia.
  { exists []. split; [reflexivity|constructor]. }
  exists c. split; [exact E|]. apply COUNTER_VALUE_at; [exact Hat|lia|lia].
Qed.

Lemma counter_value_is_initial_plus_sum_witness :
  exists c, counter_test = Some c /\ COUNTER_VALUE c 256 = Some 3.
Proof.
  apply (counter_value_is_initial_plus_sum 0 [1; 2] 256);
    [lia|repeat constructor|vm_compute; discriminate|vm_compute; reflexivity].
Defined.

(** X2: the value of a counter named [count] does not go down.  After an
    accepted [COUNTER_ADD] in the class that declares it, of whatever amount,
    negative ones included, that leaves the sum -- taken in [unsigned] --
    below the instantiation depth of the compiler, the counter reads at least
    what it read before, and never more than the maximum it is read
    against. *)
Theorem counter_never_decreases (c c' : counter_state)
    (add_value max_value v : Z) :
  COUNTER_VALUE c max_value = Some v ->
  COUNTER_ADD c c add_value max_value = Some c' ->
  u32 (v + add_value) < template_depth ->
  exists v', COUNTER_VALUE c' max_value = Some v' /\ v <= v' <= max_value.
Proof.
  intros Hv Hadd Hdepth. apply COUNTER_ADD_inv in Hadd as (v0 & Hv0 & -> & _).
  rewrite Hv in Hv0. injection Hv0 as <-.
  pose proof (COUNTER_VALUE_inv _ _ _ Hv) as (_ & _ & _ & _ & Hr).
  assert (HN : 0 <= u32 (v + add_value))
    by (unfold u32; apply Z.mod_pos_bound; lia).
  rewrite (COUNTER_VALUE_cons c _ max_value v) by (auto; lia).
  eexists. split; [reflexivity|].
  destruct (Z.leb_spec (u32 (v + add_value)) max_value); lia.
Qed.

Lemma counter_never_decreases_witness :
  exists v', COUNTER_VALUE [2; 3; 0] 8 = Some v' /\ 3 <= v' <= 8.
Proof.
  apply (counter_never_decreases [3; 0] _ (-1) 8 3);
    [reflexivity|reflexivity|vm_compute; reflexivity].
Defined.

(** X3: an accepted [COUNTER_ADD] on a counter named [count], in the class
    that declares it, that takes the sum past the maximum the counter is read
    against -- but not up to the instantiation depth of the compiler -- is
    lost: the counter still reads its old value. *)
Theorem counter_add_past_max_is_lost (c c' : counter_state)
    (add_value max_value v : Z) :
  COUNTER_VALUE c max_value = Some v ->
  COUNTER_ADD c c add_value max_value = Some c' ->
  max_value < u32 (v + add_value) < template_depth ->
  COUNTER_VALUE c' max_value = Some v.
Proof.
  intros Hv Hadd Hover. apply COUNTER_ADD_inv in Hadd as (v0 & Hv0 & -> & _).
  rewrite Hv in Hv0. injection Hv0 as <-.
  pose proof (COUNTER_VALUE_inv _ _ _ Hv) as (_ & Hm & _).
  rewrite (COUNTER_VALUE_cons c _ max_value v) by (auto; lia).
  destruct (Z.leb_spec (u32 (v + add_value)) max_value); [lia|reflexivity].
Qed.

Lemma counter_add_past_max_is_lost_witness :
  COUNTER_VALUE [10; 5; 0] 8 = Some 5.
Proof.
  apply (counter_add_past_max_is_lost [5; 0] _ 5 8 5); [reflexivity|reflexivity|].
  vm_compute. split; reflexivity.
Defined.




(** * The class under construction *)

Lemma declare_all_app (ds1 ds2 : list declaration) :
  forall b, declare_all b (ds1 ++ ds2)
            = (b' <- declare_all b ds1 ;; declare_all b' ds2).
Proof.
  induction ds1 as [|d ds1 IH]; intros b; cbn [app declare_all bind]; [reflexivity|].
  destruct (declare b d); cbn [bind]; auto.
Qed.

Lemma in_order_snoc (fs : list bit_field) :
  forall lo hi f hi',
    in_order lo fs hi -> hi <= NOffset f -> 0 <= NBits f -> NOffset f + NBits f <= hi' ->
    in_order lo (fs ++ [f]) hi'.
Proof.
  induction fs as [|g fs IH]; intros lo hi f hi' H Hf Hn Hhi; cbn [app in_order] in *.
  - repeat split; lia.
  - destruct H as (H1 & H2 & H3). repeat split; auto. eapply IH; eauto.
Qed.

Lemma in_order_bounds (fs : list bit_field) :
  forall lo hi, in_order lo fs hi ->
    lo <= hi /\
    forall f, In f fs -> 0 <= NBits f /\ lo <= NOffset f /\ NOffset f + NBits f <= hi.
Proof.
  induction fs as [|g fs IH]; intros lo hi H; cbn [in_order] in *.
  - split; [lia|]. intros f [].
  - destruct H as (H1 & H2 & H3). destruct (IH _ _ H3) as [Hle Hall].
    split; [lia|]. intros f [<-|Hin]; [lia|].
    specialize (Hall f Hin). lia.
Qed.

Lemma in_order_pairs (fs : list bit_field) :
  forall lo hi, in_order lo fs hi ->
    forall i j fi fj, (i < j)%nat ->
      nth_error fs i = Some fi -> nth_error fs j = Some fj ->
      NOffset fi + NBits fi <= NOffset fj.
Proof.
  induction fs as [|g fs IH]; intros lo hi H i j fi fj Hij Hi Hj.
  - destruct i; discriminate.
  - cbn [in_order] in H. destruct H as (H1 & H2 & H3).
    destruct j as [|j]; [lia|]. cbn [nth_error] in Hj.
    destruct i as [|i].
    + cbn [nth_error] in Hi. injection Hi as <-.
      apply nth_error_In in Hj.
      destruct (in_order_bounds _ _ _ H3) as [_ Hall]. specialize (Hall fj Hj). lia.
    + cbn [nth_error] in Hi. eapply (IH _ _ H3 i j); eauto. lia.
Qed.

(** The counter of a class after one more overload of [count]: it is not
    below what it was. *)
Lemma lookup_count_grows (b : bit_field_builder) (N v v' : Z) :
  COUNTER_VALUE (lookup_count b) (max_field b) = Some v ->
  COUNTER_VALUE (N :: count b) (max_field b) = Some v' ->
  v <= v'.
Proof.
  intros Hv Hv'. unfold lookup_count in Hv.
  destruct (count b) as [|M own] eqn:Ec.
  - apply COUNTER_VALUE_inv in Hv as (_ & _ & _ & Hin & _).
    apply COUNTER_VALUE_inv in Hv' as (_ & _ & _ & _ & Hr).
    destruct Hin as [<-|[]]. lia.
  - apply COUNTER_VALUE_inv in Hv as (E & _).
    apply COUNTER_VALUE_inv in Hv' as (E' & _).
    rewrite (best_viable_cons _ N _ _ E) in E'. injection E' as <-.
    destruct (N <=? max_field b); lia.
Qed.

Lemma declare_pad_inv (b b' : bit_field_builder) (n : Z) :
  declare_pad b n = Some b' ->
  exists v, COUNTER_VALUE (lookup_count b) (max_field b) = Some v /\
    ~ In (u32 (v + n)) (count b) /\
    b' = {| value_type := value_type b; default_config := default_config b;
            count := u32 (v + n) :: count b; fields := fields b |}.
Proof.
  unfold declare_pad. intros H.
  destruct (COUNTER_ADD _ _ _ _) as [c'|] eqn:Ea; [|discriminate].
  cbn [bind] in H. injection H as <-.
  apply COUNTER_ADD_inv in Ea as (v & Hv & -> & Hnot). exists v. auto.
Qed.

Lemma declare_keeps_ok (b b' : bit_field_builder) (d : declaration) :
  builder_ok b -> num_bits_of d < 2 ^ 31 -> declare b d = Some b' ->
  builder_ok b' /\ value_type b' = value_type b.
Proof.
  intros (hi & Hord & Hhi & Hnil & Hpos & Hcount) Hint Hd.
  assert (Hw : max_field b <= 64)
    by (unfold max_field; pose proof (bits_range (value_type b)); lia).
  destruct d as [n c|n]; cbn [declare num_bits_of] in *.
  - unfold declare_field in Hd.
    destruct (COUNTER_VALUE (lookup_count b) (max_field b)) as [v|] eqn:Hv;
      [|discriminate].
    cbn [bind] in Hd.
    destruct (guard (u32 (v + n) <=? max_field b)) eqn:G; [|discriminate].
    cbn [bind] in Hd.
    destruct (size_t_arg n) as [n'|] eqn:En; [|discriminate].
    apply size_t_arg_inv in En as [-> Hn]. cbn [bind] in Hd.
    destruct (declare_pad b n) as [b1|] eqn:Ep; [|discriminate].
    cbn [bind] in Hd. injection Hd as <-.
    apply declare_pad_inv in Ep as (v0 & Hv0 & Hnot & ->).
    rewrite Hv in Hv0. injection Hv0 as <-.
    cbn [value_type default_config count fields]. split; [|reflexivity].
    pose proof (COUNTER_VALUE_inv _ _ _ Hv) as (_ & _ & _ & Hin & Hr).
    apply guard_inv, Z.leb_le in G.
    rewrite u32_small in G, Hnot |- * by lia.
    pose proof (Hcount v eq_refl) as Hhv.
    exists (v + n). unfold lookup_count, max_field in *.
    cbn [value_type default_config count fields].
    split; [|split; [|split; [|split]]].
    + apply (in_order_snoc (fields b) 0 hi); cbn [NOffset NBits]; auto; lia.
    + lia.
    + discriminate.
    + destruct (fields b) as [|g fs] eqn:Ef; [constructor|].
      cbn [app tl] in *. apply Forall_app. split; [exact Hpos|].
      constructor; [|constructor]. cbn [NBits].
      destruct (count b) as [|M own] eqn:Ec; [specialize (Hnil eq_refl); discriminate|].
      assert (n <> 0) by (intros ->; apply Hnot; rewrite Z.add_0_r; exact Hin).
      lia.
    + intros v' Hv'. apply COUNTER_VALUE_inv in Hv' as (E' & _).
      apply (best_viable_head _ _ _ _ G E').
  - apply declare_pad_inv in Hd as (v & Hv & Hnot & ->).
    cbn [value_type]. split; [|reflexivity].
    exists hi. unfold max_field in *. cbn [value_type default_config count fields].
    split; [exact Hord|]. split; [exact Hhi|]. split; [discriminate|].
    split; [exact Hpos|].
    intros v' Hv'. unfold lookup_count in Hv'. cbn [count] in Hv'.
    pose proof (lookup_count_grows b _ v v' Hv Hv'). specialize (Hcount v Hv). lia.
Qed.

Lemma declare_all_keeps_ok (ds : list declaration) :
  forall b b',
    builder_ok b -> Forall (fun d => num_bits_of d < 2 ^ 31) ds ->
    declare_all b ds = Some b' ->
    builder_ok b' /\ value_type b' = value_type b.
Proof.
  induction ds as [|d ds IH]; intros b b' Hok Hint Hd; cbn [declare_all] in Hd.
  - injection Hd as <-. auto.
  - inversion Hint as [|d' ds' Hd1 Hds]; subst.
    destruct (declare b d) as [b1|] eqn:E1; [|discriminate]. cbn [bind] in Hd.
    destruct (declare_keeps_ok b b1 d Hok Hd1 E1) as [Hok1 Hty1].
    destruct (IH b1 b' Hok1 Hds Hd) as [Hok' Hty']. split; [assumption|congruence].
Qed.

(** What an accepted class looks like. *)
Lemma define_class_layout (T : scalar) (TDefault : bit_field_config)
    (ds : list declaration) (b : bit_field_builder) :
  Forall (fun d => num_bits_of d < 2 ^ 31) ds ->
  define_class T TDefault ds = Some b ->
  (is_integral T || is_byte T) = true /\ value_type b = T /\
  (forall f, In f (fields b) ->
     0 <= NBits f /\ 0 <= NOffset f /\ NOffset f + NBits f <= bits T) /\
  (forall i j fi fj, (i < j)%nat ->
     nth_error (fields b) i = Some fi -> nth_error (fields b) j = Some fj ->
     NOffset fi + NBits fi <= NOffset fj /\ 0 < NBits fj).
Proof.
  intros Hint Hb. unfold define_class, bit_field_builder_init in Hb.
  destruct (is_integral T || is_byte T) eqn:HT; [|discriminate].
  cbn [guard bind] in Hb. split; [reflexivity|].
  assert (Hinit : builder_ok {| value_type := T; default_config := TDefault;
                                count := []; fields := [] |}).
  { exists 0. pose proof (bits_range T). unfold max_field.
    cbn [count value_type fields in_order tl].
    repeat split; try lia; auto.
    intros v Hv. apply COUNTER_VALUE_inv in Hv. lia. }
  destruct (declare_all_keeps_ok ds _ b Hinit Hint Hb)
    as [(hi & Hord & Hhi & _ & Hpos & _) Hty].
  cbn [value_type] in Hty. split; [exact Hty|].
  unfold max_field in Hhi. rewrite Hty in Hhi. split.
  - intros f Hin. destruct (in_order_bounds _ _ _ Hord) as [_ Hall].
    specialize (Hall f Hin). lia.
  - intros i j fi fj Hij Hi Hj. split.
    + exact (in_order_pairs _ _ _ Hord i j fi fj Hij Hi Hj).
    + destruct j as [|j]; [lia|]. destruct (fields b) as [|g fs]; [discriminate|].
      cbn [nth_error tl] in *. apply nth_error_In in Hj.
      rewrite Forall_forall in Hpos. exact (Hpos fj Hj).
Qed.

(** X4: in every accepted class, whatever mix of fields and padding declares
    it with bit counts that are [int] values, each field lies inside the
    storage type and the fields follow one another without overlap: a field
    declared earlier ends where a later one starts, or before.  Every field
    but the first of the class is at least one bit wide; the first may have
    no bit at all. *)
Theorem accepted_class_fields_do_not_overlap (T : scalar) (TDefault : bit_field_config)
    (ds : list declaration) (b : bit_field_builder) :
  Forall (fun d => num_bits_of d < 2 ^ 31) ds ->
  define_class T TDefault ds = Some b ->
  (forall f, In f (fields b) ->
     0 <= NBits f /\ 0 <= NOffset f /\ NOffset f + NBits f <= bits T) /\
  (forall i j fi fj, (i < j)%nat ->
     nth_error (fields b) i = Some fi -> nth_error (fields b) j = Some fj ->
     NOffset fi + NBits fi <= NOffset fj /\ 0 < NBits fj).
Proof.
  intros Hint Hb. apply (define_class_layout T TDefault ds b Hint Hb).
Qed.

Lemma accepted_class_fields_do_not_overlap_witness :
  exists b,
    define_class uint8_t bit_field_config_default
      [BIT_FIELD 0 None; BIT_FIELD 5 None; BIT_FIELD_PAD 1; BIT_FIELD 2 None] = Some b /\
    map NBits (fields b) = [0; 5; 2] /\ map NOffset (fields b) = [0; 0; 6] /\
    (forall f, In f (fields b) ->
       0 <= NBits f /\ 0 <= NOffset f /\ NOffset f + NBits f <= bits uint8_t) /\
    (forall i j fi fj, (i < j)%nat ->
       nth_error (fields b) i = Some fi -> nth_error (fields b) j = Some fj ->
       NOffset fi + NBits fi <= NOffset fj /\ 0 < NBits fj).
Proof.
  eexists. split; [vm_compute; reflexivity|].
  split; [reflexivity|]. split; [reflexivity|].
  apply (accepted_class_fields_do_not_overlap uint8_t bit_field_config_default
           [BIT_FIELD 0 None; BIT_FIELD 5 None; BIT_FIELD_PAD 1; BIT_FIELD 2 None]);
    [repeat constructor|reflexivity].
Defined.

(** The class after an accepted run of declarations of positive size. *)
Lemma define_class_prefix (T : scalar) (TDefault : bit_field_config)
    (pre rest : list declaration) :
  (is_integral T || is_byte T) = true ->
  Forall (fun d => 0 < num_bits_of d) pre -> total_bits pre <= bits T ->
  exists b1,
    define_class T TDefault (pre ++ rest) = declare_all b1 rest /\
    value_type b1 = T /\ default_config b1 = TDefault /\
    allocated b1 (total_bits pre) /\
    fields b1 = laid_out TDefault 0 pre.
Proof.
  intros HT Hpos Htot. unfold define_class, bit_field_builder_init.
  rewrite HT. cbn [guard bind]. rewrite declare_all_app.
  destruct (declare_all_at pre
              {| value_type := T; default_config := TDefault;
                 count := []; fields := [] |} 0)
    as (b1 & E & Hty & Hcfg & Hc & Hf); auto; try lia.
  { left. split; reflexivity. }
  exists b1. rewrite E. cbn [bind]. rewrite Z.add_0_l in Hc. auto.
Qed.

Lemma total_bits_positive (ds : list declaration) :
  Forall (fun d => 0 < num_bits_of d) ds -> ds <> [] -> 0 < total_bits ds.
Proof.
  intros Hpos Hne. destruct ds as [|d ds]; [congruence|].
  inversion Hpos as [|d' ds' Hd Hds]; subst.
  pose proof (total_bits_nonneg ds Hds). unfold total_bits in *.
  cbn [map fold_right]. lia.
Qed.

(** X5: a field that would end past the storage type is rejected, and the
    whole class with it. *)
Theorem field_past_storage_is_rejected (T : scalar) (TDefault : bit_field_config)
    (pre post : list declaration) (num_bits : Z) (config : option bit_field_config) :
  (is_integral T || is_byte T) = true ->
  Forall (fun d => 0 < num_bits_of d) pre -> total_bits pre <= bits T ->
  bits T < total_bits pre + num_bits < 2 ^ 32 ->
  define_class T TDefault (pre ++ BIT_FIELD num_bits config :: post) = None.
Proof.
  intros HT Hpos Htot Hover.
  destruct (define_class_prefix T TDefault pre (BIT_FIELD num_bits config :: post))
    as (b1 & -> & Hty & _ & Hc & _); auto.
  pose proof (total_bits_nonneg pre Hpos). pose proof (max_field_depth b1) as Hd.
  cbn [declare_all declare]. unfold declare_field.
  rewrite (COUNTER_VALUE_at (lookup_count b1) (total_bits pre))
    by (auto using lookup_count_at; unfold max_field in *; rewrite Hty in *; lia).
  cbn [bind]. rewrite u32_small by lia. unfold max_field. rewrite Hty.
  destruct (Z.leb_spec (total_bits pre + num_bits) (bits T)); [lia|reflexivity].
Qed.

Lemma field_past_storage_is_rejected_witness :
  define_class uint32_t bit_field_config_default
    (my_bit_field_declarations ++ [BIT_FIELD 1 None]) = None.
Proof.
  apply (field_past_storage_is_rejected uint32_t bit_field_config_default
           my_bit_field_declarations [] 1 None);
    [reflexivity|repeat constructor|vm_compute; discriminate|vm_compute; split; reflexivity].
Defined.

(** X6: in a class over an integral or [std::byte] storage type, padding that
    would end past the storage type, but not up to the instantiation depth of
    the compiler, is accepted.  After at least one declaration -- the earlier
    ones of positive size and fitting the storage -- it is dropped: a field
    of positive size that fits after the earlier declarations starts where
    the padding should have started, and [is_complete()] does not count the
    padding.  A padding ending at the same bit as the first declaration of
    the class is not dropped: its overload of [count] hides the inherited
    one, no overload is viable any more, and the next field is rejected. *)
Theorem padding_past_storage_is_dropped (T : scalar) (TDefault : bit_field_config)
    (pre : list declaration) (pad_bits num_bits : Z) (config : option bit_field_config) :
  (is_integral T || is_byte T) = true ->
  Forall (fun d => 0 < num_bits_of d) pre -> total_bits pre <= bits T ->
  pre <> [] ->
  bits T < total_bits pre + pad_bits < template_depth ->
  0 < num_bits -> total_bits pre + num_bits <= bits T ->
  (exists b,
     define_class T TDefault (pre ++ [BIT_FIELD_PAD pad_bits; BIT_FIELD num_bits config])
     = Some b /\
     nth_error (fields b) (field_count pre)
     = Some {| NBits := num_bits; NOffset := total_bits pre;
               TDefaultConfig := make_config TDefault config |} /\
     is_complete b = Some (total_bits pre + num_bits =? bits T)) /\
  define_class T TDefault
    [BIT_FIELD_PAD (total_bits pre + pad_bits); BIT_FIELD num_bits config] = None.
Proof.
  intros HT Hpos Htot Hne Hover Hn Hfit. unfold template_depth in Hover.
  pose proof (total_bits_positive pre Hpos Hne) as Hp.
  pose proof (bits_range T) as Hw. split.
  - destruct (define_class_prefix T TDefault pre
                [BIT_FIELD_PAD pad_bits; BIT_FIELD num_bits config])
      as (b1 & -> & Hty & Hcfg & Hc & Hf); auto.
    set (v := total_bits pre) in *.
    destruct Hc as [[_ Hc]|Hc]; [lia|].
    assert (Hmax : max_field b1 = bits T) by (unfold max_field; rewrite Hty; reflexivity).
    assert (Hlook : lookup_count b1 = count b1).
    { unfold lookup_count. destruct Hc as (rest & -> & _). reflexivity. }
    assert (Hv : COUNTER_VALUE (count b1) (max_field b1) = Some v)
      by (apply COUNTER_VALUE_at; auto; unfold template_depth; lia).
    assert (Hv1 : COUNTER_VALUE ((v + pad_bits) :: count b1) (bits T) = Some v).
    { rewrite Hmax in Hv.
      rewrite (COUNTER_VALUE_cons _ _ _ _ Hv) by (unfold template_depth; lia).
      destruct (Z.leb_spec (v + pad_bits) (bits T)); [lia|reflexivity]. }
    cbn [declare_all declare bind]. unfold declare_pad at 1, COUNTER_ADD.
    rewrite Hlook, Hv. cbn [bind]. rewrite u32_small by lia.
    rewrite (counter_at_fresh _ v) by (auto; lia). cbn [negb guard bind].
    unfold declare_field, declare_pad, COUNTER_ADD, lookup_count, max_field.
    cbn [count value_type default_config fields]. rewrite Hty.
    rewrite Hv1. cbn [bind]. rewrite u32_small by lia.
    rewrite guard_true by (apply Z.leb_le; lia). cbn [bind].
    rewrite size_t_arg_small by lia. cbn [bind existsb].
    destruct (Z.eqb_spec (v + num_bits) (v + pad_bits)); [lia|].
    rewrite (counter_at_fresh _ v) by (auto; lia). cbn [orb negb guard bind].
    eexists. split; [reflexivity|]. cbn [fields]. split.
    + rewrite Hf, Hcfg.
      rewrite nth_error_app2 by (rewrite laid_out_length; lia).
      rewrite laid_out_length, Nat.sub_diag. reflexivity.
    + unfold is_complete, lookup_count, max_field. cbn [count value_type].
      rewrite ?Hty.
      rewrite (COUNTER_VALUE_cons _ _ _ _ Hv1) by (unfold template_depth; lia).
      destruct (Z.leb_spec (v + num_bits) (bits T)); [|lia]. cbn [bind].
      f_equal. f_equal. lia.
  - unfold define_class, bit_field_builder_init. rewrite HT.
    cbn [guard bind declare_all declare].
    unfold declare_pad, COUNTER_ADD, lookup_count, max_field, COUNTER_INITIALIZE.
    cbn [count value_type default_config fields COUNTER_INITIALIZE].
    rewrite (COUNTER_VALUE_at [0] 0)
      by (try (exists []; split; [reflexivity|constructor]);
          unfold template_depth; lia).
    cbn [bind existsb negb guard]. rewrite Z.add_0_l, u32_small by lia.
    unfold declare_field, lookup_count, max_field.
    cbn [count value_type default_config fields bind].
    unfold COUNTER_VALUE. cbn [best_viable].
    destruct (Z.leb_spec (total_bits pre + pad_bits) (bits T)); [lia|].
    destruct (guard _); reflexivity.
Qed.

Lemma padding_past_storage_is_dropped_witness :
  (exists b,
     define_class uint8_t bit_field_config_default
       ([BIT_FIELD 5 None] ++ [BIT_FIELD_PAD 5; BIT_FIELD 3 None]) = Some b /\
     nth_error (fields b) (field_count [BIT_FIELD 5 None])
     = Some {| NBits := 3; NOffset := total_bits [BIT_FIELD 5 None];
               TDefaultConfig := make_config bit_field_config_default None |} /\
     is_complete b = Some (total_bits [BIT_FIELD 5 None] + 3 =? bits uint8_t)) /\
  define_class uint8_t bit_field_config_default
    [BIT_FIELD_PAD (total_bits [BIT_FIELD 5 None] + 5); BIT_FIELD 3 None] = None.
Proof.
  apply (padding_past_storage_is_dropped uint8_t bit_field_config_default
           [BIT_FIELD 5 None] 5 3 None).
  - reflexivity.
  - repeat constructor.
  - vm_compute. discriminate.
  - discriminate.
  - vm_compute. split; reflexivity.
  - reflexivity.
  - vm_compute. discriminate.
Defined.



(** X7: in a class over an integral or [std::byte] storage type, after at
    least one declaration -- the earlier ones of positive size and fitting
    the storage -- a field or a padding of zero bits is rejected, and the
    class with it.  As the only declaration of the class it is accepted: its
    overload of [count] only hides the inherited one, a field of no bits at
    offset 0 results, and the class is not complete. *)
Theorem zero_bits_are_rejected (T : scalar) (TDefault : bit_field_config)
    (pre post : list declaration) (d : declaration) :
  (is_integral T || is_byte T) = true ->
  Forall (fun d => 0 < num_bits_of d) pre -> total_bits pre <= bits T ->
  pre <> [] ->
  num_bits_of d = 0 ->
  define_class T TDefault (pre ++ d :: post) = None /\
  exists b, define_class T TDefault [d] = Some b /\
            fields b = laid_out TDefault 0 [d] /\
            is_complete b = Some false.
Proof.
  intros HT Hpos Htot Hne Hd.
  pose proof (total_bits_positive pre Hpos Hne) as Hp.
  pose proof (bits_range T) as Hw. split.
  - destruct (define_class_prefix T TDefault pre (d :: post))
      as (b1 & -> & Hty & _ & Hc & _); auto.
    destruct Hc as [[_ Hc]|Hc]; [lia|].
    pose proof (max_field_depth b1) as Hdep.
    assert (Hlook : lookup_count b1 = count b1).
    { unfold lookup_count. destruct Hc as (rest & -> & _). reflexivity. }
    assert (Hv : COUNTER_VALUE (count b1) (max_field b1) = Some (total_bits pre))
      by (apply COUNTER_VALUE_at; auto; unfold max_field in *; rewrite Hty in *; lia).
    assert (Hpad : declare_pad b1 0 = None).
    { unfold declare_pad, COUNTER_ADD. rewrite Hlook, Hv. cbn [bind].
      rewrite Z.add_0_r, u32_small by lia.
      destruct Hc as (rest & -> & _). cbn [existsb]. rewrite Z.eqb_refl. reflexivity. }
    cbn [declare_all]. destruct d as [n c|n]; cbn [num_bits_of declare] in *; subst n.
    + unfold declare_field. rewrite Hpad, Hlook, Hv. cbn [bind].
      destruct (guard _); [|reflexivity]. cbn [bind].
      destruct (size_t_arg 0); reflexivity.
    + rewrite Hpad. reflexivity.
  - assert (H0 : COUNTER_VALUE [0] (bits T) = Some 0).
    { apply COUNTER_VALUE_at; try (unfold template_depth; lia).
      exists []. split; [reflexivity|constructor]. }
    unfold define_class, bit_field_builder_init. rewrite HT.
    cbn [guard bind declare_all].
    assert (Hpad : declare_pad {| value_type := T; default_config := TDefault;
                                  count := []; fields := [] |} 0
                   = Some {| value_type := T; default_config := TDefault;
                             count := [0]; fields := [] |}).
    { unfold declare_pad, COUNTER_ADD, lookup_count, max_field, COUNTER_INITIALIZE.
      cbn [count value_type default_config fields COUNTER_INITIALIZE].
      rewrite H0. reflexivity. }
    assert (Hdone : forall fs,
               is_complete {| value_type := T; default_config := TDefault;
                              count := [0]; fields := fs |} = Some false).
    { intros fs. unfold is_complete, lookup_count, max_field.
      cbn [count value_type]. rewrite H0. cbn [bind].
      destruct (Z.eqb_spec 0 (bits T)); [lia|reflexivity]. }
    destruct d as [n c|n]; cbn [num_bits_of declare laid_out] in *; subst n.
    + unfold declare_field. rewrite Hpad.
      unfold lookup_count, max_field, COUNTER_INITIALIZE.
      cbn [count value_type default_config fields].
      rewrite H0. cbn [bind]. change (u32 (0 + 0)) with 0.
      destruct (Z.leb_spec 0 (bits T)); [|lia]. cbn [guard bind].
      eexists. split; [reflexivity|]. split; [reflexivity|]. apply Hdone.
    + rewrite Hpad. cbn [bind].
      eexists. split; [reflexivity|]. split; [reflexivity|]. apply Hdone.
Qed.

Lemma zero_bits_are_rejected_witness :
  define_class uint8_t bit_field_config_default
    ([BIT_FIELD 5 None] ++ BIT_FIELD 0 None :: [BIT_FIELD 3 None]) = None /\
  exists b, define_class uint8_t bit_field_config_default [BIT_FIELD 0 None] = Some b /\
            fields b = laid_out bit_field_config_default 0 [BIT_FIELD 0 None] /\
            is_complete b = Some false.
Proof.
  apply (zero_bits_are_rejected uint8_t bit_field_config_default
           [BIT_FIELD 5 None] [BIT_FIELD 3 None] (BIT_FIELD 0 None)).
  - reflexivity.
  - repeat constructor.
  - vm_compute. discriminate.
  - discriminate.
  - reflexivity.
Defined.

(** * Configurations *)

(** X8: for a field declared in a class, the strategy, the type and the offset
    of a call are each resolved through four layers: the call, the field's
    declaration, the class default, and last [mask], the type of the word, and
    0; the strategy that results is never the sentinel. *)
Theorem class_field_resolves_through_four_layers
    (num_bits own : Z) (class_config field_config call_config : bit_field_config)
    (TStorage : scalar) :
  let f := {| NBits := num_bits; NOffset := own;
              TDefaultConfig := make_config class_config (Some field_config) |} in
  effective_strategy f call_config
  = strategy_or (strategy call_config)
      (strategy_or (strategy field_config)
         (strategy_or (strategy class_config) BIT_FIELD_DEFAULT_STRATEGY))
  /\ effective_storage f call_config TStorage
     = type_or (type call_config)
         (type_or (type field_config) (type_or (type class_config) TStorage))
  /\ effective_offset f call_config
     = resolve_offset own (offset_setting_of (offset call_config))
         (resolve_offset own (offset_setting_of (offset field_config))
            (resolve_offset own (offset_setting_of (offset class_config)) 0))
  /\ effective_strategy f call_config <> bit_field_assignment_strategy.no_override.
Proof.
  intro f. subst f.
  unfold effective_strategy, effective_storage, effective_offset, make_config,
    strategy_or, type_or, resolve_offset, offset_setting_of.
  cbn [TDefaultConfig NOffset type offset strategy].
  repeat split.
  - destruct (strategy call_config), (strategy field_config), (strategy class_config);
      reflexivity.
  - destruct (type call_config), (type field_config), (type class_config); reflexivity.
  - destruct (offset call_config =? no_override);
      [|destruct (offset call_config =? no_shift); reflexivity].
    destruct (offset field_config =? no_override) eqn:E; cbn [negb]; rewrite ?E;
      [|destruct (offset field_config =? no_shift); reflexivity].
    destruct (offset class_config =? no_override);
      [|destruct (offset class_config =? no_shift)]; reflexivity.
  - destruct (strategy call_config), (strategy field_config), (strategy class_config);
      discriminate.
Qed.

(** X9: [make_config] is an override merge: merging is associative, the empty
    configuration is neutral on either side, and no argument gives the
    default. *)
Theorem make_config_is_an_override_merge :
  (forall a b c,
      make_config (make_config a (Some b)) (Some c)
      = make_config a (Some (make_config b (Some c))))
  /\ (forall a, make_config a (Some bit_field_config_default) = a)
  /\ (forall b, make_config bit_field_config_default (Some b) = b)
  /\ (forall a, make_config a None = a).
Proof.
  repeat split.
  - intros [ta oa sa] [tb ob sb] [tc oc sc]. unfold make_config.
    cbn [type offset strategy]. f_equal.
    + destruct tc, tb; reflexivity.
    + destruct (oc =? no_override) eqn:E; cbn [negb]; rewrite ?E; reflexivity.
    + destruct sc, sb; reflexivity.
  - intros [ta oa sa]. reflexivity.
  - intros [tb ob sb]. unfold make_config, bit_field_config_default.
    cbn [type offset strategy]. f_equal.
    + destruct tb; reflexivity.
    + destruct (Z.eqb_spec ob no_override); cbn [negb]; congruence.
    + destruct sb; reflexivity.
Qed.

(** * Masks and relocation *)

(** X10: what [bit_mask] is on every type, inside the domain of its [requires]
    clause: for a span ending at bit 32 at the latest a value of the type
    with the bits of the span set and, if the span holds bit 31, every bit
    from 32 up as well; for a span ending higher, rejected. *)
Theorem bit_mask_on_every_type (T : scalar) (NStart NCount : Z) :
  (is_integral T || is_byte T) = true ->
  0 <= NStart -> 0 < NCount -> NStart + NCount <= bits T ->
  (NStart + NCount <= 32 ->
   exists m, bit_mask T NStart NCount = Some m /\ in_range T m /\
     forall k, 0 <= k < bits T -> Z.testbit m k = mask_bit NStart NCount k) /\
  (32 < NStart + NCount -> bit_mask T NStart NCount = None).
Proof.
  intros HT Hs Hc Hw. split; intros H32.
  - apply bit_mask_defined; assumption.
  - apply bit_mask_undefined; assumption.
Qed.

Lemma bit_mask_on_every_type_witness :
  (31 + 1 <= 32 ->
   exists m, bit_mask uint64_t 31 1 = Some m /\ in_range uint64_t m /\
     forall k, 0 <= k < bits uint64_t -> Z.testbit m k = mask_bit 31 1 k) /\
  (32 < 31 + 1 -> bit_mask uint64_t 31 1 = None).
Proof.
  apply (bit_mask_on_every_type uint64_t 31 1);
    [reflexivity|lia|lia|vm_compute; discriminate].
Defined.

(** X11: [extract_bits] with its mask relocates exactly the span.  For a bit
    count of at least one, offsets that are not negative, and both spans
    inside their types -- the sums taken as integers, so that the [size_t]
    sums of the [requires] clause do not wrap --, on a source type of at most
    32 bits whose span stays clear of the sign bit of a signed source type:
    the call is accepted, bit [NDestinationOffset + k] of the result is bit
    [NSourceOffset + k] of the source for [k < NBits], and every other bit of
    the result is zero. *)
Theorem extract_bits_relocates_the_span (NBits NSourceOffset : Z)
    (TSource TDestination : scalar) (NDestinationOffset source : Z) :
  bits TSource <= 32 ->
  is_signed TSource = false \/ NSourceOffset + NBits < bits TSource ->
  0 < NBits -> 0 <= NSourceOffset -> 0 <= NDestinationOffset ->
  NBits + NSourceOffset <= bits TSource ->
  NBits + NDestinationOffset <= bits TDestination ->
  exists r,
    extract_bits NBits NSourceOffset TSource TDestination NDestinationOffset
      false source = Some r /\
    in_range TDestination r /\
    forall k, 0 <= k < bits TDestination ->
      Z.testbit r k
      = in_span NDestinationOffset NBits k
        && Z.testbit source (k - NDestinationOffset + NSourceOffset).
Proof. apply extract_bits_exact. Qed.

Lemma extract_bits_relocates_the_span_witness :
  exists r,
    extract_bits 2 1 uint8_t Byte 3 false 250 = Some r /\
    in_range Byte r /\
    forall k, 0 <= k < bits Byte ->
      Z.testbit r k = in_span 3 2 k && Z.testbit 250 (k - 3 + 1).
Proof.
  apply (extract_bits_relocates_the_span 2 1 uint8_t Byte 3 250);
    first [left; reflexivity | vm_compute; discriminate | lia | idtac].
Defined.

(** X12: on a source type of at most 32 bits, for arguments that are not
    negative and whose two sums in the [requires] clause do not wrap in
    [size_t] -- [NBits + NSourceOffset] and [NBits + NDestinationOffset] below
    2^64 --, [extract_bits] is rejected exactly when the bit count is zero or
    the span does not fit the source or the destination type. *)
Theorem extract_bits_rejected_iff (NBits NSourceOffset : Z)
    (TSource TDestination : scalar) (NDestinationOffset : Z) (BSkipMask : bool)
    (source : Z) :
  bits TSource <= 32 ->
  0 <= NBits -> 0 <= NSourceOffset -> 0 <= NDestinationOffset ->
  NBits + NSourceOffset < 2 ^ 64 -> NBits + NDestinationOffset < 2 ^ 64 ->
  extract_bits NBits NSourceOffset TSource TDestination NDestinationOffset
    BSkipMask source = None
  <-> NBits = 0 \/ bits TSource < NBits + NSourceOffset
      \/ bits TDestination < NBits + NDestinationOffset.
Proof.
  intros H32 Hn Hso Hdo Hs64 Hd64. split.
  - intros Hnone.
    destruct (Z.eq_dec NBits 0); [left; assumption|].
    destruct (Z_lt_le_dec (bits TSource) (NBits + NSourceOffset));
      [right; left; assumption|].
    destruct (Z_lt_le_dec (bits TDestination) (NBits + NDestinationOffset));
      [right; right; assumption|].
    destruct (extract_bits_defined NBits NSourceOffset TSource TDestination
                NDestinationOffset BSkipMask source) as (r & Hr & _); try lia.
    congruence.
  - intros Hrej. unfold extract_bits.
    rewrite !size_t_arg_small by lia. cbn [bind].
    rewrite !usize_small by lia.
    destruct (Z.ltb_spec 0 NBits); [|reflexivity].
    destruct (Z.leb_spec (NBits + NSourceOffset) (bits TSource)); [|reflexivity].
    destruct (Z.leb_spec (NBits + NDestinationOffset) (bits TDestination));
      [lia|reflexivity].
Qed.

Lemma extract_bits_rejected_iff_witness :
  extract_bits 1 8 Byte Byte 0 false 0 = None
  <-> 1 = 0 \/ bits Byte < 1 + 8 \/ bits Byte < 1 + 0.
Proof.
  apply (extract_bits_rejected_iff 1 8 Byte Byte 0 false 0);
    first [vm_compute; discriminate | vm_compute; reflexivity].
Defined.

(** * Reading a field *)

(** X13: [get] without a shift and without a change of type is the word
    and-ed with [bit_mask], on every type; and it is rejected exactly when
    [bit_mask] is. *)
Theorem get_unshifted_is_masking (f : bit_field) (TConfig : bit_field_config)
    (TStorage : scalar) (value : Z) :
  strategy TConfig = bit_field_assignment_strategy.no_override ->
  effective_offset f TConfig = NOffset f ->
  effective_storage f TConfig TStorage = TStorage ->
  0 <= NOffset f -> 0 <= NBits f -> NOffset f + NBits f <= bits TStorage ->
  get f TConfig TStorage value
  = (m <- bit_mask (underlying TStorage) (NOffset f) (NBits f) ;;
     Some (static_cast TStorage (Z.land value m))).
Proof.
  intros Hst Heo Hty Ho Hn Hw. pose proof (bits_range TStorage) as Hb.
  unfold get. rewrite Hst, Heo, Hty.
  cbn [bit_field_assignment_strategy.eqb guard bind].
  unfold extract_bits. rewrite !size_t_arg_small by lia. cbn [bind].
  rewrite !usize_small by lia.
  destruct (Z.ltb_spec 0 (NBits f)) as [Hpos|Hz].
  - destruct (Z.leb_spec (NBits f + NOffset f) (bits TStorage)); [|lia].
    cbn [andb guard bind].
    destruct (bit_mask (underlying TStorage) (NOffset f) (NBits f)) as [m|];
      [|reflexivity].
    cbn [bind negb].
    rewrite static_cast_int_small by lia. rewrite int_sub_small by lia.
    cbn [bind]. rewrite Z.sub_diag. cbn [Z.eqb]. f_equal.
    apply static_cast_ext. intros k Hk.
    pose proof (bits_result_type (underlying TStorage)) as HR.
    rewrite bits_underlying in HR. unfold and_.
    rewrite !static_cast_testbit, !bits_underlying by lia.
    destruct (Z.ltb_spec k (bits TStorage)); [|lia].
    destruct (Z.ltb_spec k (bits (result_type (underlying TStorage)))); [|lia].
    rewrite !Z.land_spec, static_cast_testbit, bits_underlying by lia.
    destruct (Z.ltb_spec k (bits TStorage)); [|lia]. reflexivity.
  - cbn [andb guard bind].
    assert (NBits f = 0) as E0 by lia.
    unfold bit_mask. rewrite !unsigned_arg_small by lia. cbn [bind].
    rewrite E0. cbn [Z.ltb Z.compare]. rewrite andb_false_r. reflexivity.
Qed.

Lemma get_unshifted_is_masking_witness :
  get {| NBits := 3; NOffset := 2; TDefaultConfig := unshifted BIT_FIELD_DEFAULT_STRATEGY |}
    bit_field_config_default int_t 255
  = (m <- bit_mask (underlying int_t) 2 3 ;; Some (static_cast int_t (Z.land 255 m))).
Proof.
  apply (get_unshifted_is_masking
           {| NBits := 3; NOffset := 2;
              TDefaultConfig := unshifted BIT_FIELD_DEFAULT_STRATEGY |}
           bit_field_config_default int_t 255);
    first [reflexivity | vm_compute; discriminate].
Defined.

Lemma testbit_field_value (v off n k : Z) :
  0 <= off -> 0 <= n -> 0 <= k ->
  Z.testbit ((v / 2 ^ off) mod 2 ^ n) k = (k <? n) && Z.testbit v (k + off).
Proof.
  intros Ho Hn Hk. destruct (Z.ltb_spec k n).
  - rewrite Z.mod_pow2_bits_low by lia. rewrite Z.div_pow2_bits by lia. reflexivity.
  - rewrite Z.mod_pow2_bits_high by lia. reflexivity.
Qed.

(** X14: on a word of at most 32 bits, [get] at result offset 0 returns the
    number the field holds: the word divided by 2 to the offset, modulo 2 to
    the bit count. *)
Theorem get_returns_the_field_value (f : bit_field) (TConfig : bit_field_config)
    (TStorage : scalar) (value : Z) :
  strategy TConfig = bit_field_assignment_strategy.no_override ->
  effective_offset f TConfig = 0 ->
  bits TStorage <= 32 ->
  is_signed TStorage = false \/ NOffset f + NBits f < bits TStorage ->
  is_signed (effective_storage f TConfig TStorage) = false
  \/ NBits f < bits (effective_storage f TConfig TStorage) ->
  0 < NBits f -> 0 <= NOffset f ->
  NBits f + NOffset f <= bits TStorage ->
  NBits f <= bits (effective_storage f TConfig TStorage) ->
  get f TConfig TStorage value = Some ((value / 2 ^ NOffset f) mod 2 ^ NBits f).
Proof.
  intros Hst Heo H32 HsgS HsgR Hn Ho Hw Hrw.
  set (TR := effective_storage f TConfig TStorage) in *.
  pose proof (bits_range TR) as HbR.
  unfold get. rewrite Hst, Heo. cbn [bit_field_assignment_strategy.eqb guard bind].
  fold TR.
  destruct (extract_bits_exact (NBits f) (NOffset f) TStorage TR 0 value)
    as (r & Hr & Hrange & Hbits); auto; try lia.
  rewrite Hr. f_equal. apply (in_range_ext TR); auto.
  - assert (Hx : 0 <= (value / 2 ^ NOffset f) mod 2 ^ NBits f < 2 ^ NBits f)
      by (apply Z.mod_pos_bound; apply Z.pow_pos_nonneg; lia).
    unfold in_range. destruct (is_signed TR) eqn:Esg.
    + destruct HsgR as [|Hlt]; [discriminate|].
      assert (2 ^ NBits f <= 2 ^ (bits TR - 1)) by (apply Z.pow_le_mono_r; lia).
      assert (0 < 2 ^ (bits TR - 1)) by (apply Z.pow_pos_nonneg; lia). lia.
    + assert (2 ^ NBits f <= 2 ^ bits TR) by (apply Z.pow_le_mono_r; lia). lia.
  - intros k Hk. rewrite Hbits, testbit_field_value by lia.
    unfold in_span. rewrite Z.sub_0_r.
    destruct (Z.leb_spec 0 k); [|lia]. reflexivity.
Qed.

Lemma get_returns_the_field_value_witness :
  get {| NBits := 3; NOffset := 29; TDefaultConfig := bit_field_config_default |}
    bit_field_config_default uint32_t 3758096511
  = Some ((3758096511 / 2 ^ 29) mod 2 ^ 3).
Proof.
  apply (get_returns_the_field_value
           {| NBits := 3; NOffset := 29; TDefaultConfig := bit_field_config_default |}
           bit_field_config_default uint32_t 3758096511);
    first [reflexivity | left; reflexivity | vm_compute; discriminate].
Defined.

(** X15: on a word of at most 32 bits, [get] reads nothing but the field's
    span: two words with the same bits in the span give the same result. *)
Theorem get_reads_only_the_span (f : bit_field) (TConfig : bit_field_config)
    (TStorage : scalar) (a b : Z) :
  bits TStorage <= 32 ->
  agree_on_span TStorage (NOffset f) (NBits f) a b ->
  get f TConfig TStorage a = get f TConfig TStorage b.
Proof. apply get_depends_on_span_only. Qed.

Lemma get_reads_only_the_span_witness :
  get {| NBits := 2; NOffset := 5; TDefaultConfig := bit_field_config_default |}
    bit_field_config_default uint8_t 96
  = get {| NBits := 2; NOffset := 5; TDefaultConfig := bit_field_config_default |}
      bit_field_config_default uint8_t 255.
Proof.
  apply (get_reads_only_the_span
           {| NBits := 2; NOffset := 5; TDefaultConfig := bit_field_config_default |}
           bit_field_config_default uint8_t 96 255).
  - vm_compute. discriminate.
  - intros k Hk Hspan. cbn [NOffset NBits] in Hspan.
    assert (k = 5 \/ k = 6) as [->| ->] by lia; reflexivity.
Defined.

(** * Writing a field *)

(** Bit [k] of the word [set_helper] leaves, whatever the mask and the moved
    bits are. *)
Lemma set_helper_word_testbit (TStorage : scalar) (into m moved k : Z) :
  0 <= k < bits TStorage ->
  Z.testbit (static_cast TStorage
               (or_ TStorage
                  (static_cast TStorage (and_ TStorage into (not_ TStorage m))) moved)) k
  = (Z.testbit into k && negb (Z.testbit m k)) || Z.testbit moved k.
Proof.
  intros Hk. pose proof (bits_range TStorage). pose proof (bits_result_type TStorage).
  pose proof (bits_promote TStorage).
  unfold or_, and_, not_.
  rewrite !static_cast_testbit by lia.
  destruct (Z.ltb_spec k (bits TStorage)); [|lia].
  destruct (Z.ltb_spec k (bits (result_type TStorage))); [|lia].
  rewrite Z.lor_spec, !static_cast_testbit by lia.
  destruct (Z.ltb_spec k (bits TStorage)); [|lia].
  destruct (Z.ltb_spec k (bits (result_type TStorage))); [|lia].
  rewrite Z.land_spec, !static_cast_testbit by lia.
  destruct (Z.ltb_spec k (bits (result_type TStorage))); [|lia].
  destruct (Z.ltb_spec k (bits (promote TStorage))); [|lia].
  rewrite Z.lnot_spec by lia. reflexivity.
Qed.

Lemma set_helper_idempotent (f : bit_field) (TConfig : bit_field_config)
    (TStorage TValue : scalar) (skip_mask : bool) (into value into1 : Z) :
  set_helper f TConfig TStorage TValue skip_mask into value = Some into1 ->
  set_helper f TConfig TStorage TValue skip_mask into1 value = Some into1.
Proof.
  unfold set_helper.
  destruct (bit_mask TStorage (NOffset f) (NBits f)) as [m|]; [|discriminate].
  cbn [bind]. destruct (extract_bits _ _ _ _ _ _ _) as [moved|]; [|discriminate].
  cbn [bind]. intros [= <-]. f_equal.
  apply (in_range_ext TStorage); auto using static_cast_in_range.
  intros k Hk. rewrite !set_helper_word_testbit by lia.
  destruct (Z.testbit into k), (Z.testbit m k), (Z.testbit moved k); reflexivity.
Qed.

(** X16: [set] is idempotent, under every strategy and on every type,
    [std::byte] values under the checked strategies included: setting the
    same value again leaves the word as the first call left it, and ends the
    same way. *)
Theorem set_twice_is_set_once (f : bit_field) (TConfig : bit_field_config)
    (TStorage TValue : scalar) (into value into1 : Z) (c : completion) :
  set f TConfig TStorage TValue into value = Some (into1, c) ->
  set f TConfig TStorage TValue into1 value = Some (into1, c).
Proof.
  unfold set, set_impl. destruct (guard _); [|discriminate]. cbn [bind].
  destruct (effective_strategy f TConfig).
  - destruct (set_helper _ _ _ _ true into value) as [h|] eqn:E; [|discriminate].
    cbn [bind]. intros [= <- <-]. rewrite (set_helper_idempotent _ _ _ _ _ _ _ _ E).
    reflexivity.
  - destruct (set_helper _ _ _ _ false into value) as [h|] eqn:E; [|discriminate].
    cbn [bind]. intros [= <- <-]. rewrite (set_helper_idempotent _ _ _ _ _ _ _ _ E).
    reflexivity.
  - destruct (has_invalid_bits f TConfig TValue value) as [[|]|]; [| |discriminate];
      cbn [bind];
      (destruct (set_helper _ _ _ _ true into value) as [h|] eqn:E; [|discriminate]);
      cbn [bind]; intros [= <- <-].
    + rewrite E. reflexivity.
    + rewrite (set_helper_idempotent _ _ _ _ _ _ _ _ E). reflexivity.
  - destruct (has_invalid_bits f TConfig TValue value) as [[|]|]; [| |discriminate];
      cbn [bind];
      (destruct (set_helper _ _ _ _ true into value) as [h|] eqn:E; [|discriminate]);
      cbn [bind]; intros [= <- <-].
    + rewrite E. reflexivity.
    + rewrite (set_helper_idempotent _ _ _ _ _ _ _ _ E). reflexivity.
  - discriminate.
Qed.

Lemma set_twice_is_set_once_witness :
  set {| NBits := 3; NOffset := 2;
         TDefaultConfig := with_strategy bit_field_config_default
                             bit_field_assignment_strategy.return_bool |}
    bit_field_config_default uint8_t Byte 28 7 = Some (28, returns_bool true).
Proof.
  apply (set_twice_is_set_once
           {| NBits := 3; NOffset := 2;
              TDefaultConfig := with_strategy bit_field_config_default
                                  bit_field_assignment_strategy.return_bool |}
           bit_field_config_default uint8_t Byte 0 7 28 (returns_bool true)).
  reflexivity.
Defined.

(** Under every strategy but [unchecked], an accepted [set] on types of at
    most 32 bits changes no bit outside the field's span. *)
Lemma safe_set_frame (f : bit_field) (TConfig : bit_field_config)
    (TStorage TValue : scalar) (into value into1 : Z) (c : completion) :
  bits TStorage <= 32 -> bits TValue <= 32 ->
  (is_integral TStorage || is_byte TStorage) = true ->
  is_signed TValue = false \/ effective_offset f TConfig + NBits f < bits TValue ->
  0 < NBits f -> 0 <= NOffset f -> 0 <= effective_offset f TConfig ->
  NOffset f + NBits f <= bits TStorage ->
  effective_offset f TConfig + NBits f <= bits TValue ->
  effective_strategy f TConfig <> bit_field_assignment_strategy.unchecked ->
  set f TConfig TStorage TValue into value = Some (into1, c) ->
  forall k, 0 <= k < bits TStorage -> in_span (NOffset f) (NBits f) k = false ->
    Z.testbit into1 k = Z.testbit into k.
Proof.
  intros HS32 HV32 HT Hsg Hn Ho He Hw Hvw Hsafe Hset k Hk Hout.
  destruct (set_helper_writes_field f TConfig TStorage TValue into value)
    as (w & Hh & _ & Hb); auto.
  assert (Hwk : Z.testbit w k = Z.testbit into k) by (rewrite Hb, Hout by lia; reflexivity).
  unfold set, set_impl in Hset. destruct (guard _); [|discriminate]. cbn [bind] in Hset.
  destruct (effective_strategy f TConfig); try congruence.
  - rewrite Hh in Hset. cbn [bind] in Hset. injection Hset as <- <-. exact Hwk.
  - destruct (has_invalid_bits f TConfig TValue value) as [b|] eqn:Ei; [|discriminate].
    rewrite has_invalid_bits_exact in Ei by auto. injection Ei as <-.
    cbn [bind] in Hset.
    destruct (within_spanb TValue _ _ value) eqn:Ews; cbn [negb] in Hset.
    + apply within_spanb_spec in Ews.
      rewrite <- set_helper_skip_mask, Hh in Hset by exact Ews.
      cbn [bind] in Hset. injection Hset as <- <-. exact Hwk.
    + destruct (set_helper _ _ _ _ true into value); [|discriminate].
      cbn [bind] in Hset. injection Hset as <- <-. reflexivity.
  - destruct (has_invalid_bits f TConfig TValue value) as [b|] eqn:Ei; [|discriminate].
    rewrite has_invalid_bits_exact in Ei by auto. injection Ei as <-.
    cbn [bind] in Hset.
    destruct (within_spanb TValue _ _ value) eqn:Ews; cbn [negb] in Hset.
    + apply within_spanb_spec in Ews.
      rewrite <- set_helper_skip_mask, Hh in Hset by exact Ews.
      cbn [bind] in Hset. injection Hset as <- <-. exact Hwk.
    + destruct (set_helper _ _ _ _ true into value); [|discriminate].
      cbn [bind] in Hset. injection Hset as <- <-. reflexivity.
Qed.

(** X17: an accepted [set] under [mask], [return_bool] or [exception] changes
    no bit of the word outside the field's span -- on a storage type,
    integral or [std::byte], and a value type of at most 32 bits, for a field
    of at least one bit inside the storage type, with the span of the value,
    at the merged offset, inside the value type and clear of the sign bit of
    a signed value type: the value type is unsigned, or the span ends below
    its top bit.  A span that holds the sign bit is smeared by [>>]. *)
Theorem safe_strategies_change_only_the_span (f : bit_field)
    (TConfig : bit_field_config) (TStorage TValue : scalar)
    (into value into1 : Z) (c : completion) :
  bits TStorage <= 32 -> bits TValue <= 32 ->
  (is_integral TStorage || is_byte TStorage) = true ->
  is_signed TValue = false \/ effective_offset f TConfig + NBits f < bits TValue ->
  0 < NBits f -> 0 <= NOffset f -> 0 <= effective_offset f TConfig ->
  NOffset f + NBits f <= bits TStorage ->
  effective_offset f TConfig + NBits f <= bits TValue ->
  effective_strategy f TConfig <> bit_field_assignment_strategy.unchecked ->
  set f TConfig TStorage TValue into value = Some (into1, c) ->
  forall k, 0 <= k < bits TStorage -> in_span (NOffset f) (NBits f) k = false ->
    Z.testbit into1 k = Z.testbit into k.
Proof. apply safe_set_frame. Qed.

Lemma safe_strategies_change_only_the_span_witness :
  Z.testbit 221 6 = Z.testbit 193 6.
Proof.
  apply (safe_strategies_change_only_the_span
           {| NBits := 3; NOffset := 2; TDefaultConfig := bit_field_config_default |}
           bit_field_config_default uint8_t int_t 193 255 221 returns_void);
    first [reflexivity | right; reflexivity | vm_compute; discriminate
          | vm_compute; split; [discriminate|reflexivity]].
Defined.

(** X18: [get] after [set] under [mask] returns the bits of the value that lie
    in the span at the merged offset, and nothing else -- on a storage type,
    integral or [std::byte], and a value type of at most 32 bits; for a
    configuration that names no type and no strategy and resolves to [mask];
    for a field of at least one bit inside the storage type whose span is
    clear of the sign bit of a signed storage type; with the span of the
    value, at the merged offset, inside the value type and the result type,
    and clear of the sign bit of a signed value type. *)
Theorem masked_value_is_read_back (f : bit_field) (TConfig : bit_field_config)
    (TStorage TValue : scalar) (into value : Z) :
  bits TStorage <= 32 -> bits TValue <= 32 ->
  (is_integral TStorage || is_byte TStorage) = true ->
  is_signed TStorage = false \/ NOffset f + NBits f < bits TStorage ->
  is_signed TValue = false \/ effective_offset f TConfig + NBits f < bits TValue ->
  type TConfig = None ->
  strategy TConfig = bit_field_assignment_strategy.no_override ->
  effective_strategy f TConfig = bit_field_assignment_strategy.mask ->
  0 < NBits f -> 0 <= NOffset f -> 0 <= effective_offset f TConfig ->
  NOffset f + NBits f <= bits TStorage ->
  effective_offset f TConfig + NBits f <= bits TValue ->
  effective_offset f TConfig + NBits f <= bits (effective_storage f TConfig TStorage) ->
  exists into1 r,
    set f TConfig TStorage TValue into value = Some (into1, returns_void) /\
    get f TConfig TStorage into1 = Some r /\
    in_range (effective_storage f TConfig TStorage) r /\
    forall k, 0 <= k < bits (effective_storage f TConfig TStorage) ->
      Z.testbit r k
      = in_span (effective_offset f TConfig) (NBits f) k && Z.testbit value k.
Proof. apply mask_set_get_round_trip. Qed.

Lemma masked_value_is_read_back_witness :
  let f := {| NBits := 3; NOffset := 2; TDefaultConfig := bit_field_config_default |} in
  exists into1 r,
    set f bit_field_config_default uint8_t uint8_t 193 255 = Some (into1, returns_void) /\
    get f bit_field_config_default uint8_t into1 = Some r /\
    in_range (effective_storage f bit_field_config_default uint8_t) r /\
    forall k, 0 <= k < bits (effective_storage f bit_field_config_default uint8_t) ->
      Z.testbit r k
      = in_span (effective_offset f bit_field_config_default) (NBits f) k
        && Z.testbit 255 k.
Proof.
  intro f.
  apply (masked_value_is_read_back f bit_field_config_default uint8_t uint8_t 193 255);
    first [reflexivity | left; reflexivity | vm_compute; discriminate].
Defined.

(** X19: on types of at most 32 bits, [set] under [return_bool] or [exception]
    writes and succeeds exactly when the value has no bit outside the span at
    the merged offset; otherwise it returns [false], or throws, and the word
    is as it was. *)
Theorem checked_set_accepts_exactly_the_span (f : bit_field)
    (TConfig : bit_field_config) (TStorage TValue : scalar) (into value : Z) :
  bits TStorage <= 32 -> bits TValue <= 32 ->
  (is_integral TStorage || is_byte TStorage) = true -> is_byte TValue = false ->
  type TConfig = None ->
  0 < NBits f -> 0 <= NOffset f -> 0 <= effective_offset f TConfig ->
  NOffset f + NBits f <= bits TStorage ->
  effective_offset f TConfig + NBits f <= bits TValue ->
  exists into1,
    set_helper f TConfig TStorage TValue true into value = Some into1 /\
    set f (with_strategy TConfig bit_field_assignment_strategy.return_bool)
      TStorage TValue into value
    = Some (if within_spanb TValue (effective_offset f TConfig) (NBits f) value
            then (into1, returns_bool true) else (into, returns_bool false)) /\
    set f (with_strategy TConfig bit_field_assignment_strategy.exception)
      TStorage TValue into value
    = Some (if within_spanb TValue (effective_offset f TConfig) (NBits f) value
            then (into1, returns_void) else (into, throws_bit_field_error)).
Proof. intros. apply checked_set_exact; assumption. Qed.

Lemma checked_set_accepts_exactly_the_span_witness :
  let f := {| NBits := 3; NOffset := 2; TDefaultConfig := bit_field_config_default |} in
  exists into1,
    set_helper f bit_field_config_default uint8_t int_t true 0 15 = Some into1 /\
    set f (with_strategy bit_field_config_default
             bit_field_assignment_strategy.return_bool) uint8_t int_t 0 15
    = Some (if within_spanb int_t (effective_offset f bit_field_config_default)
                 (NBits f) 15
            then (into1, returns_bool true) else (0, returns_bool false)) /\
    set f (with_strategy bit_field_config_default
             bit_field_assignment_strategy.exception) uint8_t int_t 0 15
    = Some (if within_spanb int_t (effective_offset f bit_field_config_default)
                 (NBits f) 15
            then (into1, returns_void) else (0, throws_bit_field_error)).
Proof.
  intro f.
  apply (checked_set_accepts_exactly_the_span f bit_field_config_default
           uint8_t int_t 0 15);
    first [reflexivity | vm_compute; discriminate].
Defined.

(** X20: a value that [set] under [return_bool] has accepted is what [get]
    returns, when [get] resolves to the offset [set] used and to the value's
    type as result type, and does not name a strategy -- on a storage type,
    integral or [std::byte], and a value type of at most 32 bits; for a [set]
    configuration that names no type; for a field of at least one bit inside
    the storage type whose span is clear of the sign bit of a signed storage
    type; with the span of the value inside the value type and clear of the
    sign bit of a signed value type; for a value the value type holds. *)
Theorem accepted_value_is_read_back_unchanged (f : bit_field)
    (set_config get_config : bit_field_config) (TStorage TValue : scalar)
    (into value into1 : Z) :
  bits TStorage <= 32 -> bits TValue <= 32 ->
  (is_integral TStorage || is_byte TStorage) = true ->
  is_signed TStorage = false \/ NOffset f + NBits f < bits TStorage ->
  is_signed TValue = false \/ effective_offset f set_config + NBits f < bits TValue ->
  type set_config = None ->
  strategy get_config = bit_field_assignment_strategy.no_override ->
  effective_offset f get_config = effective_offset f set_config ->
  effective_storage f get_config TStorage = TValue ->
  0 < NBits f -> 0 <= NOffset f -> 0 <= effective_offset f set_config ->
  NOffset f + NBits f <= bits TStorage ->
  effective_offset f set_config + NBits f <= bits TValue ->
  in_range TValue value ->
  set f (with_strategy set_config bit_field_assignment_strategy.return_bool)
    TStorage TValue into value = Some (into1, returns_bool true) ->
  get f get_config TStorage into1 = Some value.
Proof.
  intros HS32 HV32 HT HsgS HsgV Hty Hst Heo Hrt Hn Ho He Hw Hvw Hrange Hset.
  destruct (checked_set_exact f set_config TStorage TValue into value)
    as (h & Hh & Hrb & _); auto.
  rewrite Hrb in Hset.
  destruct (within_spanb TValue _ _ value) eqn:Ews; [|discriminate].
  injection Hset as <-. apply within_spanb_spec in Ews.
  rewrite <- set_helper_skip_mask in Hh by exact Ews.
  destruct (set_helper_writes_field f set_config TStorage TValue into value)
    as (w & Hw' & _ & Hb); auto.
  rewrite Hh in Hw'. injection Hw' as <-.
  unfold get. rewrite Hst, Heo, Hrt.
  cbn [bit_field_assignment_strategy.eqb guard bind].
  destruct (extract_bits_exact (NBits f) (NOffset f) TStorage TValue
              (effective_offset f set_config) h)
    as (r & Hr & Hrr & Hrb'); auto; try lia.
  rewrite Hr. f_equal. apply (in_range_ext TValue); auto.
  intros k Hk. rewrite Hrb' by lia.
  destruct (in_span (effective_offset f set_config) (NBits f) k) eqn:Ei.
  - cbn [andb]. unfold in_span in Ei. rewrite Hb by lia.
    replace (in_span (NOffset f) (NBits f) (k - effective_offset f set_config + NOffset f))
      with true by (unfold in_span; lia).
    f_equal. lia.
  - cbn [andb]. destruct (Z.testbit value k) eqn:Ev; [|reflexivity].
    specialize (Ews k Hk Ev). unfold in_span in Ei. lia.
Qed.

Lemma accepted_value_is_read_back_unchanged_witness :
  get {| NBits := 3; NOffset := 2; TDefaultConfig := bit_field_config_default |}
    bit_field_config_default uint8_t 221 = Some 7.
Proof.
  apply (accepted_value_is_read_back_unchanged
           {| NBits := 3; NOffset := 2; TDefaultConfig := bit_field_config_default |}
           bit_field_config_default bit_field_config_default uint8_t uint8_t 193 7 221);
    first [reflexivity | left; reflexivity | vm_compute; discriminate
          | vm_compute; split; [discriminate|reflexivity]].
Defined.

(** [set] under an effective [mask] strategy, bit by bit. *)
Lemma mask_set_writes_field (f : bit_field) (TConfig : bit_field_config)
    (TStorage TValue : scalar) (into value : Z) :
  bits TStorage <= 32 -> bits TValue <= 32 ->
  (is_integral TStorage || is_byte TStorage) = true ->
  is_signed TValue = false \/ effective_offset f TConfig + NBits f < bits TValue ->
  type TConfig = None ->
  effective_strategy f TConfig = bit_field_assignment_strategy.mask ->
  0 < NBits f -> 0 <= NOffset f -> 0 <= effective_offset f TConfig ->
  NOffset f + NBits f <= bits TStorage ->
  effective_offset f TConfig + NBits f <= bits TValue ->
  exists w,
    set f TConfig TStorage TValue into value = Some (w, returns_void) /\
    in_range TStorage w /\
    forall k, 0 <= k < bits TStorage ->
      Z.testbit w k
      = if in_span (NOffset f) (NBits f) k
        then Z.testbit value (k - NOffset f + effective_offset f TConfig)
        else Z.testbit into k.
Proof.
  intros HS32 HV32 HT Hsg Hty Heff Hn Ho He Hw Hvw.
  destruct (set_helper_writes_field f TConfig TStorage TValue into value)
    as (w & Hh & Hr & Hb); auto.
  exists w. repeat split; auto.
  unfold set, set_impl. rewrite Hty, Heff. cbn [guard bind]. rewrite Hh. reflexivity.
Qed.

(** X21: under [mask] the last write wins: setting a first value and then a
    second leaves the word that setting the second alone leaves -- on a
    storage type, integral or [std::byte], and a value type of at most 32
    bits; for a configuration that names no type and resolves to [mask]; for
    a field of at least one bit inside the storage type; with the span of the
    values, at the merged offset, inside the value type and clear of the sign
    bit of a signed value type. *)
Theorem last_write_wins (f : bit_field) (TConfig : bit_field_config)
    (TStorage TValue : scalar) (into first second : Z) :
  bits TStorage <= 32 -> bits TValue <= 32 ->
  (is_integral TStorage || is_byte TStorage) = true ->
  is_signed TValue = false \/ effective_offset f TConfig + NBits f < bits TValue ->
  type TConfig = None ->
  effective_strategy f TConfig = bit_field_assignment_strategy.mask ->
  0 < NBits f -> 0 <= NOffset f -> 0 <= effective_offset f TConfig ->
  NOffset f + NBits f <= bits TStorage ->
  effective_offset f TConfig + NBits f <= bits TValue ->
  exists into1 into2,
    set f TConfig TStorage TValue into first = Some (into1, returns_void) /\
    set f TConfig TStorage TValue into1 second = Some (into2, returns_void) /\
    set f TConfig TStorage TValue into second = Some (into2, returns_void).
Proof.
  intros HS32 HV32 HT Hsg Hty Heff Hn Ho He Hw Hvw.
  destruct (mask_set_writes_field f TConfig TStorage TValue into first)
    as (w1 & E1 & _ & B1); auto.
  destruct (mask_set_writes_field f TConfig TStorage TValue w1 second)
    as (w2 & E2 & R2 & B2); auto.
  destruct (mask_set_writes_field f TConfig TStorage TValue into second)
    as (w3 & E3 & R3 & B3); auto.
  exists w1, w2. repeat split; auto.
  rewrite E3. do 2 f_equal. apply (in_range_ext TStorage); auto.
  intros k Hk. rewrite B2, B3, B1 by lia.
  destruct (in_span (NOffset f) (NBits f) k); reflexivity.
Qed.

Lemma last_write_wins_witness :
  let f := {| NBits := 3; NOffset := 2; TDefaultConfig := bit_field_config_default |} in
  exists into1 into2,
    set f bit_field_config_default uint8_t int_t 193 5 = Some (into1, returns_void) /\
    set f bit_field_config_default uint8_t int_t into1 2 = Some (into2, returns_void) /\
    set f bit_field_config_default uint8_t int_t 193 2 = Some (into2, returns_void).
Proof.
  intro f.
  apply (last_write_wins f bit_field_config_default uint8_t int_t 193 5 2);
    first [reflexivity | right; reflexivity | vm_compute; discriminate].
Defined.

(** X22: under [mask], writes to two fields whose spans do not overlap
    commute -- on a storage type, integral or [std::byte], and value types of
    at most 32 bits; for configurations that name no type and resolve to
    [mask]; for fields of at least one bit inside the storage type; with the
    span of each value, at its merged offset, inside its value type and clear
    of the sign bit of a signed value type. *)
Theorem sets_of_disjoint_fields_commute (f g : bit_field)
    (f_config g_config : bit_field_config) (TStorage f_type g_type : scalar)
    (into f_value g_value : Z) :
  bits TStorage <= 32 -> (is_integral TStorage || is_byte TStorage) = true ->
  NOffset f + NBits f <= NOffset g \/ NOffset g + NBits g <= NOffset f ->
  bits f_type <= 32 ->
  is_signed f_type = false \/ effective_offset f f_config + NBits f < bits f_type ->
  type f_config = None ->
  effective_strategy f f_config = bit_field_assignment_strategy.mask ->
  0 < NBits f -> 0 <= NOffset f -> 0 <= effective_offset f f_config ->
  NOffset f + NBits f <= bits TStorage ->
  effective_offset f f_config + NBits f <= bits f_type ->
  bits g_type <= 32 ->
  is_signed g_type = false \/ effective_offset g g_config + NBits g < bits g_type ->
  type g_config = None ->
  effective_strategy g g_config = bit_field_assignment_strategy.mask ->
  0 < NBits g -> 0 <= NOffset g -> 0 <= effective_offset g g_config ->
  NOffset g + NBits g <= bits TStorage ->
  effective_offset g g_config + NBits g <= bits g_type ->
  exists after_f after_g both,
    set f f_config TStorage f_type into f_value = Some (after_f, returns_void) /\
    set g g_config TStorage g_type after_f g_value = Some (both, returns_void) /\
    set g g_config TStorage g_type into g_value = Some (after_g, returns_void) /\
    set f f_config TStorage f_type after_g f_value = Some (both, returns_void).
Proof.
  intros HS32 HT Hdis Hf32 Hfsg Hfty Hfeff Hfn Hfo Hfe Hfw Hfvw
         Hg32 Hgsg Hgty Hgeff Hgn Hgo Hge Hgw Hgvw.
  destruct (mask_set_writes_field f f_config TStorage f_type into f_value)
    as (a & Ea & _ & Ba); auto.
  destruct (mask_set_writes_field g g_config TStorage g_type a g_value)
    as (ab & Eab & Rab & Bab); auto.
  destruct (mask_set_writes_field g g_config TStorage g_type into g_value)
    as (b & Eb & _ & Bb); auto.
  destruct (mask_set_writes_field f f_config TStorage f_type b f_value)
    as (ba & Eba & Rba & Bba); auto.
  exists a, b, ab. repeat split; auto.
  rewrite Eba. do 2 f_equal. apply (in_range_ext TStorage); auto.
  intros k Hk. rewrite Bba, Bab, Ba, Bb by lia.
  destruct (in_span (NOffset f) (NBits f) k) eqn:Ef,
           (in_span (NOffset g) (NBits g) k) eqn:Eg; try reflexivity.
  unfold in_span in Ef, Eg. lia.
Qed.

Lemma sets_of_disjoint_fields_commute_witness :
  let f := {| NBits := 5; NOffset := 0; TDefaultConfig := bit_field_config_default |} in
  let g := {| NBits := 3; NOffset := 29; TDefaultConfig := bit_field_config_default |} in
  exists after_f after_g both,
    set f bit_field_config_default uint32_t int_t 0 31 = Some (after_f, returns_void) /\
    set g bit_field_config_default uint32_t int_t after_f 7 = Some (both, returns_void) /\
    set g bit_field_config_default uint32_t int_t 0 7 = Some (after_g, returns_void) /\
    set f bit_field_config_default uint32_t int_t after_g 31 = Some (both, returns_void).
Proof.
  intros f g.
  apply (sets_of_disjoint_fields_commute f g bit_field_config_default
           bit_field_config_default uint32_t int_t int_t 0 31 7);
    first [reflexivity | right; reflexivity | left; vm_compute; discriminate
          | vm_compute; discriminate].
Defined.

(** An accepted [set] is of a field of at least one bit. *)
Lemma set_accepted_bits (f : bit_field) (TConfig : bit_field_config)
    (TStorage TValue : scalar) (into value : Z) (r : Z * completion) :
  set f TConfig TStorage TValue into value = Some r -> 0 < NBits f.
Proof.
  unfold set, set_impl. destruct (guard _); [|discriminate]. cbn [bind].
  assert (H : forall skip, set_helper f TConfig TStorage TValue skip into value <> None ->
                           0 < NBits f).
  { intros skip Hs.
    destruct (set_helper f TConfig TStorage TValue skip into value) as [w|] eqn:E;
      [|congruence].
    apply set_helper_inv in E. tauto. }
  destruct (effective_strategy f TConfig); try discriminate;
    try (destruct (has_invalid_bits f TConfig TValue value); [|discriminate]);
    cbn [bind]; intros Hset;
    [apply (H true)|apply (H false)|apply (H true)|apply (H true)];
    intros E; rewrite E in Hset; discriminate.
Qed.

(** A safe [set] of one field and the [get] of a field off its span. *)
Lemma set_get_other_field (f g : bit_field) (f_config g_config : bit_field_config)
    (TStorage TValue : scalar) (into value into1 : Z) (c : completion) :
  bits TStorage <= 32 -> bits TValue <= 32 ->
  (is_integral TStorage || is_byte TStorage) = true ->
  NOffset f + NBits f <= NOffset g \/ NOffset g + NBits g <= NOffset f ->
  is_signed TValue = false \/ effective_offset f f_config + NBits f < bits TValue ->
  0 < NBits f -> 0 <= NOffset f -> 0 <= effective_offset f f_config ->
  NOffset f + NBits f <= bits TStorage ->
  effective_offset f f_config + NBits f <= bits TValue ->
  effective_strategy f f_config <> bit_field_assignment_strategy.unchecked ->
  set f f_config TStorage TValue into value = Some (into1, c) ->
  get g g_config TStorage into1 = get g g_config TStorage into.
Proof.
  intros HS32 HV32 HT Hdis Hsg Hn Ho He Hw Hvw Hsafe Hset.
  apply get_depends_on_span_only; [assumption|].
  intros k Hk Hspan.
  apply (safe_set_frame f f_config TStorage TValue into value into1 c); auto.
  unfold in_span. lia.
Qed.

(** X23: an accepted [set] of one field under any strategy but [unchecked] does
    not change what [get] returns for a field whose span does not overlap it
    -- on a storage type, integral or [std::byte], and a value type of at
    most 32 bits; for a written field of at least one bit inside the storage
    type; with the span of the value, at the merged offset, inside the value
    type and clear of the sign bit of a signed value type. *)
Theorem set_leaves_other_fields_alone (f g : bit_field)
    (f_config g_config : bit_field_config)
    (TStorage TValue : scalar) (into value into1 : Z) (c : completion) :
  bits TStorage <= 32 -> bits TValue <= 32 ->
  (is_integral TStorage || is_byte TStorage) = true ->
  NOffset f + NBits f <= NOffset g \/ NOffset g + NBits g <= NOffset f ->
  is_signed TValue = false \/ effective_offset f f_config + NBits f < bits TValue ->
  0 < NBits f -> 0 <= NOffset f -> 0 <= effective_offset f f_config ->
  NOffset f + NBits f <= bits TStorage ->
  effective_offset f f_config + NBits f <= bits TValue ->
  effective_strategy f f_config <> bit_field_assignment_strategy.unchecked ->
  set f f_config TStorage TValue into value = Some (into1, c) ->
  get g g_config TStorage into1 = get g g_config TStorage into.
Proof. apply set_get_other_field. Qed.

Lemma set_leaves_other_fields_alone_witness :
  get {| NBits := 3; NOffset := 29; TDefaultConfig := bit_field_config_default |}
    bit_field_config_default uint32_t 3758096415
  = get {| NBits := 3; NOffset := 29; TDefaultConfig := bit_field_config_default |}
      bit_field_config_default uint32_t 3758096384.
Proof.
  apply (set_leaves_other_fields_alone
           {| NBits := 5; NOffset := 0; TDefaultConfig := bit_field_config_default |}
           {| NBits := 3; NOffset := 29; TDefaultConfig := bit_field_config_default |}
           bit_field_config_default bit_field_config_default
           uint32_t int_t 3758096384 31 3758096415 returns_void);
    first [reflexivity | right; reflexivity | left; vm_compute; discriminate
          | vm_compute; discriminate].
Defined.

(** X24: in an accepted class, declared with bit counts that are [int] values
    over a storage type of at most 32 bits, an accepted setter of one field,
    under any strategy but [unchecked], does not change what the getter of
    any other field returns -- for a value type of at most 32 bits, with the
    span of the value, at the merged offset, inside the value type and clear
    of the sign bit of a signed value type. *)
Theorem class_setter_leaves_other_getters (T : scalar) (TDefault : bit_field_config)
    (ds : list declaration) (b : bit_field_builder) (i j : nat) (fi : bit_field)
    (set_config get_config : bit_field_config) (TValue : scalar)
    (raw_value value raw_value1 : Z) (c : completion) :
  Forall (fun d => num_bits_of d < 2 ^ 31) ds ->
  define_class T TDefault ds = Some b ->
  bits T <= 32 -> i <> j ->
  nth_error (fields b) i = Some fi ->
  effective_strategy fi set_config <> bit_field_assignment_strategy.unchecked ->
  bits TValue <= 32 ->
  is_signed TValue = false \/ effective_offset fi set_config + NBits fi < bits TValue ->
  0 <= effective_offset fi set_config ->
  effective_offset fi set_config + NBits fi <= bits TValue ->
  set_field b i set_config TValue raw_value value = Some (raw_value1, c) ->
  get_field b j get_config raw_value1 = get_field b j get_config raw_value.
Proof.
  intros Hint Hb H32 Hij Hfi Hsafe HV32 Hsg He Hvw Hset.
  destruct (define_class_layout T TDefault ds b Hint Hb) as (HT & Hty & Hin & Hord).
  unfold set_field in Hset. rewrite Hfi in Hset. cbn [bind] in Hset.
  unfold get_field. destruct (nth_error (fields b) j) as [fj|] eqn:Hfj; [|reflexivity].
  cbn [bind]. rewrite Hty in *.
  destruct (Hin fi (nth_error_In _ _ Hfi)) as (_ & Ho & Hw).
  pose proof (set_accepted_bits _ _ _ _ _ _ _ Hset) as Hn.
  apply (set_get_other_field fi fj set_config get_config T TValue
           raw_value value raw_value1 c); auto.
  destruct (Nat.lt_total i j) as [Hlt|[Heq|Hgt]]; [|contradiction|].
  - left. exact (proj1 (Hord i j fi fj Hlt Hfi Hfj)).
  - right. exact (proj1 (Hord j i fj fi Hgt Hfj Hfi)).
Qed.

Lemma class_setter_leaves_other_getters_witness :
  exists b, my_bit_field = Some b /\
    get_field b 2 bit_field_config_default 3758096415
    = get_field b 2 bit_field_config_default 3758096384.
Proof.
  eexists. split; [vm_compute; reflexivity|].
  apply (class_setter_leaves_other_getters uint32_t bit_field_config_default
           my_bit_field_declarations _ 0 2
           {| NBits := 5; NOffset := 0; TDefaultConfig := bit_field_config_default |}
           bit_field_config_default bit_field_config_default int_t
           3758096384 31 3758096415 returns_void).
  - repeat constructor.
  - vm_compute; reflexivity.
  - vm_compute; discriminate.
  - discriminate.
  - vm_compute; reflexivity.
  - vm_compute; discriminate.
  - vm_compute; discriminate.
  - right; vm_compute; reflexivity.
  - vm_compute; discriminate.
  - vm_compute; discriminate.
  - vm_compute; reflexivity.
Defined.

(** The mask of [std::byte] is the mask of its underlying type. *)
Lemma bit_mask_loop_underlying (T : scalar) (n : nat) :
  forall i value,
    bit_mask_loop (underlying T) n i value = bit_mask_loop T n i value.
Proof.
  induction n as [|n IH]; intros i value; cbn [bit_mask_loop]; [reflexivity|].
  destruct (shl int_t 1 i) as [b|]; [|reflexivity]. cbn [bind].
  rewrite IH. f_equal. rewrite !static_cast_underlying.
  apply static_cast_ext. intros k Hk. unfold or_.
  pose proof (bits_result_type (underlying T)) as HU.
  pose proof (bits_result_type T) as HR. rewrite bits_underlying in HU.
  rewrite !static_cast_testbit by lia.
  destruct (Z.ltb_spec k (bits (result_type (underlying T)))); [|lia].
  destruct (Z.ltb_spec k (bits (result_type T))); [|lia]. reflexivity.
Qed.

Lemma bit_mask_underlying (T : scalar) (NStart NCount : Z) :
  (is_integral T || is_byte T) = true ->
  bit_mask (underlying T) NStart NCount = bit_mask T NStart NCount.
Proof.
  intros HT. unfold bit_mask.
  rewrite underlying_kind, HT, bits_underlying, static_cast_underlying.
  destruct (unsigned_arg NStart); [|reflexivity]. cbn [bind].
  destruct (unsigned_arg NCount); [|reflexivity]. cbn [bind].
  destruct (guard _); [|reflexivity]. cbn [bind].
  apply bit_mask_loop_underlying.
Qed.

(** [extract_bits] without a shift and without a change of type. *)
Lemma extract_bits_in_place (NBits NOffset : Z) (T : scalar) (BSkipMask : bool)
    (source : Z) :
  0 <= NOffset -> 0 <= NBits -> NOffset + NBits <= bits T ->
  extract_bits NBits NOffset T T NOffset BSkipMask source
  = (m <- bit_mask (underlying T) NOffset NBits ;;
     Some (static_cast T (if BSkipMask then source else Z.land source m))).
Proof.
  intros Ho Hn Hw. pose proof (bits_range T) as Hb.
  unfold extract_bits. rewrite !size_t_arg_small by lia. cbn [bind].
  rewrite !usize_small by lia.
  destruct (Z.ltb_spec 0 NBits) as [Hpos|Hz].
  - destruct (Z.leb_spec (NBits + NOffset) (bits T)); [|lia].
    cbn [andb guard bind].
    destruct (bit_mask (underlying T) NOffset NBits) as [m|]; [|reflexivity].
    cbn [bind].
    rewrite static_cast_int_small by lia. rewrite int_sub_small by lia.
    cbn [bind]. rewrite Z.sub_diag. cbn [Z.eqb]. f_equal.
    apply static_cast_ext. intros k Hk.
    pose proof (bits_result_type (underlying T)) as HR.
    rewrite bits_underlying in HR.
    destruct BSkipMask; cbn [negb]; unfold and_;
      rewrite !static_cast_testbit, !bits_underlying by lia;
      (destruct (Z.ltb_spec k (bits T)); [|lia]); [reflexivity|].
    destruct (Z.ltb_spec k (bits (result_type (underlying T)))); [|lia].
    rewrite !Z.land_spec, static_cast_testbit, bits_underlying by lia.
    destruct (Z.ltb_spec k (bits T)); [|lia]. reflexivity.
  - cbn [andb guard bind].
    assert (NBits = 0) as -> by lia.
    unfold bit_mask. rewrite !unsigned_arg_small by lia. cbn [bind].
    cbn [Z.ltb Z.compare]. rewrite andb_false_r. reflexivity.
Qed.

(** X25: [set] under [unchecked], without a shift and with a value of the
    storage type, clears the span and ors in the whole value, bits outside
    the span included. *)
Theorem unchecked_set_in_place_ors_the_value (f : bit_field)
    (TConfig : bit_field_config) (T : scalar) (into value : Z) :
  type TConfig = None ->
  effective_strategy f TConfig = bit_field_assignment_strategy.unchecked ->
  effective_offset f TConfig = NOffset f ->
  0 <= NOffset f -> 0 <= NBits f -> NOffset f + NBits f <= bits T ->
  set f TConfig T T into value
  = (m <- bit_mask T (NOffset f) (NBits f) ;;
     Some (static_cast T (Z.lor (Z.land into (Z.lnot m)) value), returns_void)).
Proof.
  intros Hty Heff Heo Ho Hn Hw. pose proof (bits_range T) as Hb.
  unfold set, set_impl. rewrite Hty, Heff. cbn [guard bind].
  unfold set_helper. rewrite Heo, extract_bits_in_place by assumption.
  destruct (bit_mask T (NOffset f) (NBits f)) as [m|] eqn:Em; [|reflexivity].
  cbn [bind].
  assert (HT : (is_integral T || is_byte T) = true).
  { pose proof (bit_mask_args _ _ _ _ Em).
    apply bit_mask_inv in Em as (HT & _); [exact HT|lia]. }
  rewrite (bit_mask_underlying T) by exact HT. rewrite Em. cbn [bind]. do 2 f_equal.
  apply (in_range_ext T); auto using static_cast_in_range.
  intros k Hk. rewrite set_helper_word_testbit by lia.
  rewrite !static_cast_testbit by lia.
  destruct (Z.ltb_spec k (bits T)); [|lia].
  rewrite Z.lor_spec, Z.land_spec, Z.lnot_spec by lia. reflexivity.
Qed.

Lemma unchecked_set_in_place_ors_the_value_witness :
  set (bit31 (unshifted bit_field_assignment_strategy.unchecked))
    bit_field_config_default uint32_t uint32_t 5 4294967295
  = (m <- bit_mask uint32_t 31 1 ;;
     Some (static_cast uint32_t (Z.lor (Z.land 5 (Z.lnot m)) 4294967295), returns_void)).
Proof.
  apply (unchecked_set_in_place_ors_the_value
           (bit31 (unshifted bit_field_assignment_strategy.unchecked))
           bit_field_config_default uint32_t 5 4294967295);
    first [reflexivity | vm_compute; discriminate].
Defined.
